(** * Digital Rhinos scene: flag ripple and mascot walk

    A shallow embedding of the scene component (the [FlagModel] and
    [RhinoModel] React components) and the properties of its
    animation core.

    Modelling conventions.
    - A JavaScript number is an IEEE double; it is idealised here as a
      real number ([R]), so every arithmetic expression of the source
      is read with the exact operations.  [Math.sin] is [sin],
      [Math.min] and [Math.max] are [Rmin] and [Rmax].
    - A typed vertex array is a [list R]; [a[i] = v] is stdpp's
      [<[i:=v]> a], which, like a typed array, ignores a write out of
      range.
    - Objects that the source mutates through references (buffer
      geometries, bones) live in a store indexed by references; the
      component keeps references, never copies.
    - The sequencing library (gsap) and the quaternion interpolation of
      the 3D library are external to the repository: their numeric
      curves are an interface ([Library]) about which nothing is
      assumed; only the sequencing rules that the component relies on
      are written out. *)

From Stdlib Require Import Reals Lra Lia ZArith List Sorted Permutation.
From stdpp Require Import gmap strings list functions.

Local Open Scope R_scope.

(* ================================================================== *)
(** * Part I: the model *)
(* ================================================================== *)

(** ** External libraries *)

(** The easing curves named by the source. *)
Inductive Ease := Power2InOut | Power2Out | SineInOut | DefaultEase.

(** A unit quaternion as the source writes it: [new Quaternion(x,y,z,w)]. *)
Record Quaternion := mkQuat { qx : R; qy : R; qz : R; qw : R }.

(** What the component calls in the libraries without defining it:
    the easing curve of a tween and [slerpQuaternions]. *)
Class Library := {
  ease : Ease -> R -> R;
  slerpQuaternions : Quaternion -> Quaternion -> R -> Quaternion
}.

(** ** Scene graph data *)

Abbreviation Ref := nat.

(** A buffer geometry: [attributes.position.array], the attribute's
    [needsUpdate] flag, whether [computeVertexNormals] has run, and
    [userData.originalPositions]. *)
Record BufferGeometry := mkGeometry {
  position : list R;
  needsUpdate : bool;
  normalsComputed : bool;
  originalPositions : option (list R)
}.

(** [attributes.position.count]: the attribute has three components per
    vertex. *)
Definition count (g : BufferGeometry) : nat := (length (position g) / 3)%nat.

(** A mesh names its geometry by reference; several meshes may share one. *)
Record Mesh := mkMesh { mesh_name : string; geometry : Ref }.

Inductive Object3D :=
| MeshObject (m : Mesh)
| OtherObject (name : string).

(** The store of geometries owned by the scene graph. *)
Abbreviation Geometries := (nat -> BufferGeometry).

(** ** RippleField: the per-vertex displacement (lines 148-177) *)

Module RippleField.

Definition waveSpeed : R := 4.2.
Definition baseHeight : R := 0.15.
Definition waveLength : R := 2.0.
Definition width : R := 4.

(** [Math.min(Math.max((x + width / 2) / width, 0), 1)] *)
Definition edgeFactor (x : R) : R :=
  Rmin (Rmax ((x + width / 2) / width) 0) 1.

(** [Math.sin(time * waveSpeed + x * waveLength) * waveHeight * edgeFactor] *)
Definition wave (time waveHeight x : R) : R :=
  sin (time * waveSpeed + x * waveLength) * waveHeight * edgeFactor x.

(** [original[ix]].  A read past the end of the cache is [undefined]
    in the source and poisons the arithmetic; that has no real-number
    counterpart.  Setup makes the cache a copy of the buffer, so it is
    as long as the buffer; every statement about the value a vertex
    receives carries that invariant, under which the default below is
    never produced. *)
Definition read (a : list R) (ix : nat) : R := nth ix a 0.

(** One iteration of the loop body, for vertex [i]. *)
Definition rippleVertex (time waveHeight : R) (original : list R)
    (array : list R) (i : nat) : list R :=
  let ix := (i * 3)%nat in
  let x := read original ix in
  let y := read original (ix + 1) in
  let z := read original (ix + 2) in
  let w := wave time waveHeight x in
  <[(ix + 2)%nat := z + w]> (<[(ix + 1)%nat := y + w]> (<[ix := x]> array)).

(** [for (let i = 0; i < pos.count; i++) ...] *)
Definition rippleLoop (time waveHeight : R) (original : list R)
    (n : nat) (array : list R) : list R :=
  fold_left (rippleVertex time waveHeight original) (seq 0 n) array.

(** The body of [rippleMesh] on the geometry object. *)
Definition rippleGeometry (time waveHeight : R) (g : BufferGeometry)
    : BufferGeometry :=
  match originalPositions g with
  | None => g
  | Some original =>
      {| position := rippleLoop time waveHeight original (count g) (position g);
         needsUpdate := true;
         normalsComputed := normalsComputed g;
         originalPositions := originalPositions g |}
  end.

(** The specification's [clamp(v, lo, hi)]. *)
Definition clamp (v lo hi : R) : R := Rmin (Rmax v lo) hi.

(** The contract of the displacement field in the specification's
    words (section 4.2), [displace(restPos, t, amplitudeScale)], kept
    apart from the loop above so that the two can be compared. *)
Definition displace (rest : R * R * R) (t amplitudeScale : R) : R * R * R :=
  let '(x, y, z) := rest in
  let edge := clamp ((x + 2) / 4) 0 1 in
  let wave := sin (t * 4.2 + x * 2.0) * (0.15 * amplitudeScale) * edge in
  (x, y + wave, z + wave).

(** The vertex [i] of a flat array, if the array holds it. *)
Definition vertex (a : list R) (i : nat) : option (R * R * R) :=
  match a !! (i * 3)%nat, a !! (i * 3 + 1)%nat, a !! (i * 3 + 2)%nat with
  | Some x, Some y, Some z => Some (x, y, z)
  | _, _, _ => None
  end.

(** What the loop leaves in cell [j] of the buffer, from the cache
    alone. *)
Definition cell (time waveHeight : R) (original : list R) (j : nat) : R :=
  let ix := (j / 3 * 3)%nat in
  if decide (j = ix) then read original ix
  else read original j + wave time waveHeight (read original ix).

End RippleField.

(** ** GeometryClassifier: ranking by vertex count (lines 84-94) *)

Module Classifier.

(** [Array.prototype.sort] is a stable sort; with a comparator that is
    a total preorder its result is determined, whatever the engine's
    algorithm.  It is written here as a stable insertion sort driven
    by the sign of the comparator. *)
Section Sort.
Context {A : Type} (cmp : A -> A -> Z).

Fixpoint insertBy (x : A) (l : list A) : list A :=
  match l with
  | [] => [x]
  | y :: l' => if (cmp x y <=? 0)%Z then x :: l else y :: insertBy x l'
  end.

Definition sortBy (l : list A) : list A := foldr insertBy [] l.
End Sort.

Definition vertexCount (h : Geometries) (m : Mesh) : nat :=
  count (h (geometry m)).

(** [(a, b) => b.geometry.attributes.position.count -
               a.geometry.attributes.position.count] *)
Definition comparator (h : Geometries) (a b : Mesh) : Z :=
  (Z.of_nat (vertexCount h b) - Z.of_nat (vertexCount h a))%Z.

(** The order the comparator asks for: [a] may stand before [b] when it
    has at least as many vertices. *)
Definition before (h : Geometries) (a b : Mesh) : Prop :=
  (vertexCount h b <= vertexCount h a)%nat.

(** [flagGroup.traverse(obj => { if (!(obj instanceof Mesh)) return;
    deformMeshes.push(obj) ... })] over the nodes in visiting order. *)
Fixpoint collectMeshes (nodes : list Object3D) : list Mesh :=
  match nodes with
  | [] => []
  | MeshObject m :: rest => m :: collectMeshes rest
  | OtherObject _ :: rest => collectMeshes rest
  end.

Definition rank (h : Geometries) (nodes : list Object3D) : list Mesh :=
  sortBy (comparator h) (collectMeshes nodes).

End Classifier.

(** ** The flag component *)

Inductive Diagnostic :=
| FlagGroupNotFound      (* "Flag group not found or invalid" *)
| NotEnoughMeshes        (* "Not enough deformable meshes found" *)
| NeckBoneNotFound       (* "Neck_mover_bone not found" *)
| MissingLegBones.       (* "Missing leg bones" *)

Inductive Cursor := CursorDefault | CursorPointer.

(** The tweens that [FlagModel] hands to the sequencer, each with the
    sequencer time at which it started. *)
Inductive FlagTween :=
| NoTween
| Rotating (started : R)     (* root.rotation.y -> 2 pi, duration 4 *)
| Decaying (started : R).    (* waveStrength.current -> 0, duration 5 *)

(** [flagRef.current] and the four properties stored on [flagRef]. *)
Record Targets := mkTargets {
  primary : option Mesh;
  secondary : option Mesh;
  tertiary : option Mesh;
  quaternary : option Mesh;
  quincenternary : option Mesh
}.

Definition noTargets : Targets := mkTargets None None None None None.

Record FlagState := mkFlag {
  geometries : Geometries;
  flagRef : Targets;
  waveStrength : R;
  isClickable : bool;
  tween : FlagTween;
  rotationY : R;
  warnings : list Diagnostic;     (* the console.warn calls, in order *)
  navigated : bool;               (* window.location.href was assigned *)
  cursor : Cursor;
  rippled : list Mesh             (* ghost: the calls of rippleMesh, latest first *)
}.

(** How a run of the effect ends. *)
Inductive Completion :=
| Returned
| Threw.     (* TypeError: cannot read properties of undefined *)

(** What [getObjectByName("Flag")] gives, with the nodes that
    [traverse] visits, in visiting order. *)
Inductive FlagLookup :=
| Missing
| NotAGroup
| FlagGroup (nodes : list Object3D).

Record FlagScene := mkFlagScene {
  rootMounted : bool;            (* group.current *)
  flagLookup : FlagLookup
}.

Module Flag.

Definition initial (h : Geometries) : FlagState :=
  {| geometries := h; flagRef := noTargets; waveStrength := 0;
     isClickable := false; tween := NoTween; rotationY := 0;
     warnings := []; navigated := false; cursor := CursorDefault;
     rippled := [] |}.

Definition set_geometries (h : Geometries) (s : FlagState) : FlagState :=
  {| geometries := h; flagRef := flagRef s; waveStrength := waveStrength s;
     isClickable := isClickable s; tween := tween s; rotationY := rotationY s;
     warnings := warnings s; navigated := navigated s; cursor := cursor s;
     rippled := rippled s |}.

Definition warn (d : Diagnostic) (s : FlagState) : FlagState :=
  {| geometries := geometries s; flagRef := flagRef s;
     waveStrength := waveStrength s; isClickable := isClickable s;
     tween := tween s; rotationY := rotationY s;
     warnings := warnings s ++ [d]; navigated := navigated s;
     cursor := cursor s; rippled := rippled s |}.

Definition set_cursor (c : Cursor) (s : FlagState) : FlagState :=
  {| geometries := geometries s; flagRef := flagRef s;
     waveStrength := waveStrength s; isClickable := isClickable s;
     tween := tween s; rotationY := rotationY s;
     warnings := warnings s; navigated := navigated s;
     cursor := c; rippled := rippled s |}.

Definition navigate (s : FlagState) : FlagState :=
  {| geometries := geometries s; flagRef := flagRef s;
     waveStrength := waveStrength s; isClickable := isClickable s;
     tween := tween s; rotationY := rotationY s;
     warnings := warnings s; navigated := true;
     cursor := cursor s; rippled := rippled s |}.

(** *** Setup (the first effect, lines 36-131) *)

(** [geo.computeVertexNormals();
     geo.userData.originalPositions = geo.attributes.position.array.slice()] *)
Definition cacheGeometry (g : BufferGeometry) : BufferGeometry :=
  {| position := position g; needsUpdate := needsUpdate g;
     normalsComputed := true; originalPositions := Some (position g) |}.

(** [[primary, secondary, tertiary, quaternary, quincenternary]
     .forEach(mesh => { const geo = mesh.geometry; ... })]:
    an [undefined] element makes [mesh.geometry] throw, after the
    elements before it have been cached. *)
Fixpoint cacheEach (slots : list (option Mesh)) (h : Geometries)
    : Completion * Geometries :=
  match slots with
  | [] => (Returned, h)
  | None :: _ => (Threw, h)
  | Some mesh :: rest =>
      cacheEach rest (<[geometry mesh := cacheGeometry (h (geometry mesh))]> h)
  end.

Definition slots (t : Targets) : list (option Mesh) :=
  [primary t; secondary t; tertiary t; quaternary t; quincenternary t].

(** [deformMeshes[0]] ... [deformMeshes[4]] *)
Definition select (ranked : list Mesh) : Targets :=
  {| primary := ranked !! 0%nat; secondary := ranked !! 1%nat;
     tertiary := ranked !! 2%nat; quaternary := ranked !! 3%nat;
     quincenternary := ranked !! 4%nat |}.

(** The effect body; [now] is the sequencer's clock when it runs.
    Moving the group, logging the mesh names, enabling the render layer
    and whitening the material named [DR_white] (lines 48-63, 75-81)
    touch neither geometries nor the component's refs and are left
    out. *)
Definition setup (scene : FlagScene) (now : R) (s : FlagState)
    : Completion * FlagState :=
  if negb (rootMounted scene) then (Returned, s) else
  match flagLookup scene with
  | Missing | NotAGroup => (Returned, warn FlagGroupNotFound s)
  | FlagGroup nodes =>
      let deformMeshes := Classifier.rank (geometries s) nodes in
      let t := select deformMeshes in
      match primary t, secondary t with
      | Some _, Some _ =>
          match cacheEach (slots t) (geometries s) with
          | (Threw, h) => (Threw, set_geometries h s)
          | (Returned, h) =>
              (Returned,
               {| geometries := h; flagRef := t;
                  waveStrength := waveStrength s;
                  isClickable := isClickable s;
                  tween := Rotating now; rotationY := rotationY s;
                  warnings := warnings s; navigated := navigated s;
                  cursor := cursor s; rippled := rippled s |})
          end
      | _, _ => (Returned, warn NotEnoughMeshes s)
      end
  end.

(** *** The sequencer's tick for the two chained tweens (lines 114-130) *)

(** Modelled from the spec: the sequencer (the [gsap] package) is not
    part of the repository; sections 3 and 4.3 of the specification give
    its rules.  A tween started at [t0] with duration [d] is complete at
    the first tick whose time is at least [t0 + d]; its [onComplete]
    runs at that tick, and a tween created there starts at that tick's
    time.  Before completion the animated property is its start value
    plus the eased share of the way to its end value. *)
Definition tick `{Library} (now : R) (s : FlagState) : FlagState :=
  match tween s with
  | NoTween => s
  | Rotating t0 =>
      if Rle_dec (t0 + 4) now then
        (* onComplete: waveStrength.current = 5; gsap.to(waveStrength, ...) *)
        {| geometries := geometries s; flagRef := flagRef s;
           waveStrength := 5; isClickable := isClickable s;
           tween := Decaying now; rotationY := PI * 2;
           warnings := warnings s; navigated := navigated s;
           cursor := cursor s; rippled := rippled s |}
      else
        {| geometries := geometries s; flagRef := flagRef s;
           waveStrength := waveStrength s; isClickable := isClickable s;
           tween := tween s;
           rotationY := PI * 2 * ease Power2InOut ((now - t0) / 4);
           warnings := warnings s; navigated := navigated s;
           cursor := cursor s; rippled := rippled s |}
  | Decaying t0 =>
      if Rle_dec (t0 + 5) now then
        (* onComplete: isClickable.current = true *)
        {| geometries := geometries s; flagRef := flagRef s;
           waveStrength := 0; isClickable := true;
           tween := NoTween; rotationY := rotationY s;
           warnings := warnings s; navigated := navigated s;
           cursor := cursor s; rippled := rippled s |}
      else
        {| geometries := geometries s; flagRef := flagRef s;
           waveStrength := 5 + (0 - 5) * ease Power2Out ((now - t0) / 5);
           isClickable := isClickable s;
           tween := tween s; rotationY := rotationY s;
           warnings := warnings s; navigated := navigated s;
           cursor := cursor s; rippled := rippled s |}
  end.

(** *** The frame callback (lines 136-196) *)

(** [rippleMesh(mesh)] with the closure's [time] and [waveHeight]. *)
Definition rippleMesh (time waveHeight : R) (mesh : Mesh) (s : FlagState)
    : FlagState :=
  {| geometries :=
       <[geometry mesh :=
           RippleField.rippleGeometry time waveHeight
             (geometries s (geometry mesh))]> (geometries s);
     flagRef := flagRef s; waveStrength := waveStrength s;
     isClickable := isClickable s; tween := tween s;
     rotationY := rotationY s; warnings := warnings s;
     navigated := navigated s; cursor := cursor s;
     rippled := mesh :: rippled s |}.

(** [if (m) rippleMesh(m)] *)
Definition rippleIf (time waveHeight : R) (m : option Mesh) (s : FlagState)
    : FlagState :=
  match m with
  | Some mesh => rippleMesh time waveHeight mesh s
  | None => s
  end.

(** [useFrame(({ clock }) => ...)], [time] being
    [clock.getElapsedTime()].  The tween of the material's emissive
    intensity at its end touches no geometry and is left out. *)
Definition useFrame (time : R) (s : FlagState) : FlagState :=
  if Rle_dec (waveStrength s) 0 then s else
  match primary (flagRef s), secondary (flagRef s) with
  | Some p, Some q =>
      let waveHeight := RippleField.baseHeight * waveStrength s in
      rippleIf time waveHeight (quincenternary (flagRef s))
        (rippleIf time waveHeight (quaternary (flagRef s))
          (rippleIf time waveHeight (tertiary (flagRef s))
            (rippleMesh time waveHeight q
              (rippleMesh time waveHeight p s))))
  | _, _ => s
  end.

(** The meshes that the frame callback ripples, in call order (lines
    179-183), and the same calls as a fold. *)
Definition targetMeshes (t : Targets) : list Mesh :=
  omap (fun m => m) (slots t).

Definition rippleAll (time waveHeight : R) (ms : list Mesh) (s : FlagState)
    : FlagState :=
  fold_left (fun s m => rippleMesh time waveHeight m s) ms s.

(** *** Pointer handlers of the hit area (lines 220-231)

    [message_console], called on hover, only swaps a material and is
    left out. *)

Definition onPointerOver (s : FlagState) : FlagState :=
  if Rlt_dec 0 (waveStrength s) then s else set_cursor CursorPointer s.

Definition onPointerOut (s : FlagState) : FlagState :=
  set_cursor CursorDefault s.

Definition onClick (s : FlagState) : FlagState :=
  if Rlt_dec 0 (waveStrength s) then s else navigate s.

(** *** What the host does to the mounted component *)

Inductive Event :=
| Tick (now : R)          (* the sequencer advances to [now] *)
| Frame (elapsed : R)     (* the render loop calls the frame callback *)
| Click
| PointerOver
| PointerOut.

Definition step `{Library} (s : FlagState) (e : Event) : FlagState :=
  match e with
  | Tick now => tick now s
  | Frame elapsed => useFrame elapsed s
  | Click => onClick s
  | PointerOver => onPointerOver s
  | PointerOut => onPointerOut s
  end.

Definition run `{Library} (s : FlagState) (es : list Event) : FlagState :=
  fold_left step es s.

(** Mounting the component on a scene: the state with its refs at
    their initial values, then the effect. *)
Definition mount (scene : FlagScene) (h : Geometries) (now : R)
    : Completion * FlagState :=
  setup scene now (initial h).

(** The component at rest on the store [h]: no tween, no amplitude, no
    call of [rippleMesh] so far. *)
Definition idle (h : Geometries) (s : FlagState) : Prop :=
  tween s = NoTween /\ waveStrength s = 0 /\ rippled s = []
  /\ geometries s = h /\ isClickable s = false.

End Flag.

(** ** The mascot component *)

(** A joint: its name and its current orientation. *)
Record Bone := mkBone { bone_name : string; quaternion : Quaternion }.

Abbreviation Skeleton := (nat -> Bone).

(** The nodes of the mascot's scene that [traverse] visits, in visiting
    order. *)
Inductive RhinoNode :=
| BoneNode (b : Ref)
| PlainNode.

Record RhinoScene := mkRhinoScene {
  groupMounted : bool;           (* group.current *)
  rhinoNodes : list RhinoNode
}.

Inductive Callback := PlayLegs | PauseLegs.

(** What a tween animates: the [onUpdate] callbacks and the tweened
    property of the source, by name. *)
Inductive Update :=
| Nothing                                  (* to({}, { duration }) *)
| RootX (from to : R)                      (* to(group.current.position, { x }),
                                              from the x set at line 411 *)
| LegsHalfCycle1 (fl bl fr br : Ref)       (* first leg tween, lines 362-384 *)
| LegsHalfCycle2 (fl bl fr br : Ref)       (* second leg tween, lines 386-408 *)
| NeckLookAt (neck : Ref) (startQuat : Quaternion).   (* lines 442-457 *)

Inductive Step :=
| To (u : Update) (duration : R) (e : Ease)
| Call (c : Callback).

(** [gsap.timeline({ repeat: -1, paused: true })] with its children. *)
Record LoopTimeline := mkLoop {
  loopSteps : list Step;
  paused : bool;
  playhead : R
}.

(** [gsap.timeline()]: the children not yet completed, each with its
    position on the timeline, and the sequencer time of creation. *)
Record PhaseTimeline := mkPhase {
  created : R;
  pending : list (R * Step)
}.

Record Timelines := mkTimelines {
  legTl : LoopTimeline;
  bodyTl : PhaseTimeline;
  lastTick : R
}.

Record RhinoState := mkRhino {
  skeleton : Skeleton;
  bones : gmap string Ref;            (* bones.current *)
  positionX : R;                      (* group.current.position.x *)
  timelines : option Timelines;
  rhinoWarnings : list Diagnostic;
  fired : list (Callback * R)         (* ghost: callbacks run, with the tick time, latest first *)
}.

Module Rhino.

(** *** The orientation keyframes (lines 286-357) *)

Definition lookAtViewerQuat : Quaternion :=
  mkQuat (-0.3826812549074975) (-0.0012971686512075215)
         0.0031314363856131937 0.9238742409459028.
Definition forwardFrontL : Quaternion :=
  mkQuat 0.2105577234701947 (-0.7490538817867567)
         0.3166884659892685 0.5424870461252903.
Definition backwardFrontL : Quaternion :=
  mkQuat 0.43725962297372956 (-0.5181884477809773)
         0.6267806912284278 0.38396714995369796.
Definition forwardBackL : Quaternion :=
  mkQuat 0.2923585826261666 (-0.7221053563528358)
         0.41249857984350696 0.47216017797188514.
Definition backwardBackL : Quaternion :=
  mkQuat 0.46451037371875004 (-0.4801202747394801)
         0.6790255855492136 0.3043663700300849.
Definition forwardFrontR : Quaternion :=
  mkQuat 0.31663267436445885 (-0.5478111952176493)
         0.20930112921304217 0.7455465778785493.
Definition backwardFrontR : Quaternion :=
  mkQuat 0.6251117107370124 (-0.3892699585317157)
         0.43860342871477914 0.515103192924535.
Definition forwardBackR : Quaternion :=
  mkQuat 0.48848472496773976 (-0.5147301606915479)
         0.2910137458299352 0.6416749151988816.
Definition backwardBackR : Quaternion :=
  mkQuat 0.6968593983529858 (-0.36418252110954535)
         0.46584034808699476 0.40589530946959085.

(** *** State updates *)

Definition set_quaternion (q : Quaternion) (b : Bone) : Bone :=
  {| bone_name := bone_name b; quaternion := q |}.

(** [bone.quaternion.slerpQuaternions(qa, qb, t)] *)
Definition slerpInto `{Library} (bone : Ref) (qa qb : Quaternion) (t : R)
    (sk : Skeleton) : Skeleton :=
  <[bone := set_quaternion (slerpQuaternions qa qb t) (sk bone)]> sk.

Definition set_skeleton (sk : Skeleton) (s : RhinoState) : RhinoState :=
  {| skeleton := sk; bones := bones s; positionX := positionX s;
     timelines := timelines s; rhinoWarnings := rhinoWarnings s;
     fired := fired s |}.

Definition set_positionX (x : R) (s : RhinoState) : RhinoState :=
  {| skeleton := skeleton s; bones := bones s; positionX := x;
     timelines := timelines s; rhinoWarnings := rhinoWarnings s;
     fired := fired s |}.

Definition set_timelines (t : option Timelines) (s : RhinoState) : RhinoState :=
  {| skeleton := skeleton s; bones := bones s; positionX := positionX s;
     timelines := t; rhinoWarnings := rhinoWarnings s;
     fired := fired s |}.

Definition set_bones (m : gmap string Ref) (s : RhinoState) : RhinoState :=
  {| skeleton := skeleton s; bones := m; positionX := positionX s;
     timelines := timelines s; rhinoWarnings := rhinoWarnings s;
     fired := fired s |}.

Definition warn (d : Diagnostic) (s : RhinoState) : RhinoState :=
  {| skeleton := skeleton s; bones := bones s; positionX := positionX s;
     timelines := timelines s; rhinoWarnings := rhinoWarnings s ++ [d];
     fired := fired s |}.

(** The tween's [onUpdate] (or its animated property) at the value
    [t] of the tweened variable. *)
Definition applyUpdate `{Library} (u : Update) (t : R) (s : RhinoState)
    : RhinoState :=
  match u with
  | Nothing => s
  | RootX from to => set_positionX (from + (to - from) * t) s
  | LegsHalfCycle1 fl bl fr br =>
      set_skeleton
        (slerpInto br backwardBackR forwardBackR t
          (slerpInto fr forwardFrontR backwardFrontR t
            (slerpInto bl forwardBackL backwardBackL t
              (slerpInto fl backwardFrontL forwardFrontL t (skeleton s))))) s
  | LegsHalfCycle2 fl bl fr br =>
      set_skeleton
        (slerpInto br forwardBackR backwardBackR t
          (slerpInto fr backwardFrontR forwardFrontR t
            (slerpInto bl backwardBackL forwardBackL t
              (slerpInto fl forwardFrontL backwardFrontL t (skeleton s))))) s
  | NeckLookAt neck startQuat =>
      set_skeleton (slerpInto neck startQuat lookAtViewerQuat t (skeleton s)) s
  end.

(** *** The sequencer's rules

    The sequencer itself (the [gsap] package) is not part of the
    repository.  Sections 3 and 4.3 of the specification give its
    rules: a timeline's steps run strictly in sequence, each child
    placed where its predecessor ends; a tween drives its variable from
    0 to 1 over its duration through its easing curve and calls its
    update at each tick; a wait only delays; a callback fires when
    reached and takes no time; a loop timeline starts paused, restarts
    from its first step when it reaches its end, and stops where it is
    when paused. *)

(** Modelled from the spec: the time a step of the sequencer takes; a
    callback takes none. *)
Definition duration (st : Step) : R :=
  match st with
  | To _ d _ => d
  | Call _ => 0
  end.

(** Modelled from the spec: the sequencer's placement of the children
    of a timeline built by successive [.to] and [.call], each where its
    predecessor ends. *)
Fixpoint place (start : R) (steps : list Step) : list (R * Step) :=
  match steps with
  | [] => []
  | st :: rest => (start, st) :: place (start + duration st) rest
  end.

Definition set_paused (b : bool) (l : LoopTimeline) : LoopTimeline :=
  {| loopSteps := loopSteps l; paused := b; playhead := playhead l |}.

(** Modelled from the spec: the sequencer's [play()] and [pause()] on
    the loop timeline, as the callbacks [legTl.play()] and
    [legTl.pause()] call them at the tick of time [now]. *)
Definition fire (c : Callback) (now : R) (s : RhinoState) : RhinoState :=
  match timelines s with
  | None => s
  | Some tl =>
      {| skeleton := skeleton s; bones := bones s; positionX := positionX s;
         timelines :=
           Some {| legTl := set_paused (match c with
                                        | PlayLegs => false
                                        | PauseLegs => true
                                        end) (legTl tl);
                   bodyTl := bodyTl tl; lastTick := lastTick tl |};
         rhinoWarnings := rhinoWarnings s;
         fired := (c, now) :: fired s |}
  end.

(** Modelled from the spec: the sequencer advancing a phase timeline to
    the local time [tau]: complete, in order, every child that ends by
    [tau]; then render the child in progress, if any.  Returns the
    children still pending. *)
Fixpoint advance `{Library} (now tau : R) (todo : list (R * Step))
    (s : RhinoState) : list (R * Step) * RhinoState :=
  match todo with
  | [] => ([], s)
  | (p, Call c) :: rest =>
      if Rle_dec p tau then advance now tau rest (fire c now s)
      else (todo, s)
  | (p, To u d e) :: rest =>
      if Rle_dec (p + d) tau then advance now tau rest (applyUpdate u 1 s)
      else if Rle_dec p tau
           then (todo, applyUpdate u (ease e ((tau - p) / d)) s)
           else (todo, s)
  end.

(** Modelled from the spec: the sequencer rendering one pass of a
    loop's children at the offset [c] into the cycle. *)
Fixpoint renderCycle `{Library} (c : R) (steps : list Step)
    (s : RhinoState) : RhinoState :=
  match steps with
  | [] => s
  | Call _ :: rest => renderCycle c rest s
  | To u d e :: rest =>
      if Rlt_dec c d then applyUpdate u (ease e (c / d)) s
      else renderCycle (c - d) rest (applyUpdate u 1 s)
  end.

Definition cycleLength (steps : list Step) : R :=
  fold_right (fun st acc => duration st + acc) 0 steps.

(** Modelled from the spec: the offset into the current cycle of a
    loop whose playhead is at [t]. *)
Definition cycleOffset (len t : R) : R :=
  t - IZR (Int_part (t / len)) * len.

Definition renderLoop `{Library} (l : LoopTimeline) (s : RhinoState)
    : RhinoState :=
  renderCycle (cycleOffset (cycleLength (loopSteps l)) (playhead l))
              (loopSteps l) s.

(** Modelled from the spec: one tick of the sequencer at time [now]:
    the leg loop, created first, moves by the time elapsed since the
    last tick if it is playing; then the body timeline advances. *)
Definition tick `{Library} (now : R) (s : RhinoState) : RhinoState :=
  match timelines s with
  | None => s
  | Some tl =>
      let legs :=
        if paused (legTl tl) then legTl tl
        else {| loopSteps := loopSteps (legTl tl); paused := false;
                playhead := playhead (legTl tl) + (now - lastTick tl) |} in
      let s1 :=
        set_timelines
          (Some {| legTl := legs; bodyTl := bodyTl tl; lastTick := now |}) s in
      let s2 := if paused legs then s1 else renderLoop legs s1 in
      let '(todo, s3) :=
        advance now (now - created (bodyTl tl)) (pending (bodyTl tl)) s2 in
      match timelines s3 with
      | None => s3
      | Some tl3 =>
          set_timelines
            (Some {| legTl := legTl tl3;
                     bodyTl := {| created := created (bodyTl tl3);
                                  pending := todo |};
                     lastTick := lastTick tl3 |}) s3
      end
  end.

(** *** Setup (the effect, lines 266-464) *)

(** [gltf.scene.traverse(child => { if (child instanceof Bone)
    foundBones[child.name] = child; ... })]; a later bone of the same
    name replaces an earlier one.  Enabling the render layer is
    outside the animation core and left out. *)
Definition collectBones (sk : Skeleton) (nodes : list RhinoNode)
    : gmap string Ref :=
  fold_left
    (fun (found : gmap string Ref) node =>
       match node with
       | BoneNode b => <[bone_name (sk b) := b]> found
       | PlainNode => found
       end)
    nodes ∅.

Definition legSteps (fl bl fr br : Ref) : list Step :=
  [ To (LegsHalfCycle1 fl bl fr br) 0.5 SineInOut;
    To (LegsHalfCycle2 fl bl fr br) 0.5 SineInOut ].

(** Steps 1 to 3 of the body timeline (lines 420-436). *)
Definition walkSteps : list Step :=
  [ To Nothing 5 DefaultEase;
    Call PlayLegs;
    To (RootX (-15) (-9.5)) 4 Power2InOut;
    Call PauseLegs ].

(** Step 4 (lines 439-458): [startQuat] is the neck's orientation
    when the effect runs. *)
Definition lookSteps (sk : Skeleton) (neckBone : option Ref) : list Step :=
  match neckBone with
  | Some neck => [ To (NeckLookAt neck (quaternion (sk neck))) 1.8 Power2Out ]
  | None => []
  end.

Definition setup (scene : RhinoScene) (now : R) (s : RhinoState)
    : RhinoState :=
  if negb (groupMounted scene) then s else
  let foundBones := collectBones (skeleton s) (rhinoNodes scene) in
  let s := set_bones foundBones s in
  let frontLeg1L := foundBones !! "Front_leg_1_L"%string in
  let backLeg1L := foundBones !! "Back_leg_1_L"%string in
  let frontLeg1R := foundBones !! "Front_leg_1_R"%string in
  let backLeg1R := foundBones !! "Back_leg_1_R"%string in
  let neckBone := foundBones !! "Neck_mover_bone"%string in
  let s := match neckBone with
           | None => warn NeckBoneNotFound s
           | Some _ => s
           end in
  match frontLeg1L, backLeg1L, frontLeg1R, backLeg1R with
  | Some fl, Some bl, Some fr, Some br =>
      let legs := {| loopSteps := legSteps fl bl fr br;
                     paused := true; playhead := 0 |} in
      (* START STATE: group.current.position.set(-15, -0.9, -3) *)
      let s := set_positionX (-15) s in
      let body := {| created := now;
                     pending := place 0 (walkSteps
                                         ++ lookSteps (skeleton s) neckBone) |} in
      set_timelines
        (Some {| legTl := legs; bodyTl := body; lastTick := now |}) s
  | _, _, _, _ => warn MissingLegBones s
  end.

(** The effect's cleanup: [legTl.kill(); bodyTl.kill()]. *)
Definition cleanup (s : RhinoState) : RhinoState := set_timelines None s.

Definition initial (sk : Skeleton) : RhinoState :=
  {| skeleton := sk; bones := ∅; positionX := 0; timelines := None;
     rhinoWarnings := []; fired := [] |}.

Definition mount (scene : RhinoScene) (sk : Skeleton) (now : R) : RhinoState :=
  setup scene now (initial sk).

Definition run `{Library} (s : RhinoState) (ticks : list R) : RhinoState :=
  fold_left (fun s now => tick now s) ticks s.

(** Some tick of [ticks] came at or after the position [p] of a
    timeline created at [start]. *)
Definition reached (start : R) (ticks : list R) (p : R) : Prop :=
  Exists (fun t => p <= t - start) ticks.

(** The component as the effect leaves it when the four leg joints
    resolve to [fl], [bl], [fr], [br] and the neck to [neck]. *)
Definition walking (sk : Skeleton) (found : gmap string Ref)
    (fl bl fr br : Ref) (neck : option Ref) (now : R) : RhinoState :=
  {| skeleton := sk; bones := found; positionX := -15;
     timelines :=
       Some {| legTl := {| loopSteps := legSteps fl bl fr br;
                           paused := true; playhead := 0 |};
               bodyTl := {| created := now;
                            pending := place 0 (walkSteps ++ lookSteps sk neck) |};
               lastTick := now |};
     rhinoWarnings := match neck with
                      | None => [NeckBoneNotFound]
                      | Some _ => []
                      end;
     fired := [] |}.

(** Whether the leg loop is playing. *)
Definition legsPlaying (s : RhinoState) : bool :=
  match timelines s with
  | Some tl => negb (paused (legTl tl))
  | None => false
  end.

(** The children of the body timeline still to complete. *)
Definition bodyPending (s : RhinoState) : list (R * Step) :=
  match timelines s with
  | Some tl => pending (bodyTl tl)
  | None => []
  end.

(** The stages of the walk, as the state shows them: the component
    left by setup with the leg joints [fl], [bl], [fr], [br] and the
    neck joint [neck], on a timeline created at [now]. *)
Section Stages.
Context `{Library}.
Context (sk : Skeleton) (found : gmap string Ref) (fl bl fr br : Ref)
        (neck : option Ref) (now : R).

Definition placed : list (R * Step) :=
  place 0 (walkSteps ++ lookSteps sk neck).

Definition isLeg (r : Ref) : Prop := r = fl \/ r = bl \/ r = fr \/ r = br.

Definition shaped (s : RhinoState) (sk' : Skeleton) (x : R) (legsPaused : bool)
    (lp : R) (todo : list (R * Step)) (lt : R) (log : list (Callback * R))
    : Prop :=
  s = {| skeleton := sk'; bones := found; positionX := x;
         timelines :=
           Some {| legTl := {| loopSteps := legSteps fl bl fr br;
                               paused := legsPaused; playhead := lp |};
                   bodyTl := {| created := now; pending := todo |};
                   lastTick := lt |};
         rhinoWarnings := rhinoWarnings (walking sk found fl bl fr br neck now);
         fired := log |}.

(** Before the wait is over: nothing has moved. *)
Definition waiting (s : RhinoState) : Prop :=
  exists lt, shaped s sk (-15) true 0 placed lt [].

(** Between the start of the walk and the arrival: the legs play, and
    only leg joints have been written. *)
Definition striding (s : RhinoState) : Prop :=
  exists sk' x lp lt t1,
    shaped s sk' x false lp (drop 2 placed) lt [(PlayLegs, t1)]
    /\ 5 <= t1 - now
    /\ forall r, ~ isLeg r -> sk' r = sk r.

(** After the arrival, with the head turn still to finish: the legs are
    paused again and the root is at its destination. *)
Definition turning (s : RhinoState) : Prop :=
  exists sk' x lp lt t1 t2,
    shaped s sk' x true lp (drop 4 placed) lt
      [(PauseLegs, t2); (PlayLegs, t1)]
    /\ x = -9.5 /\ 5 <= t1 - now /\ 9 <= t2 - now
    /\ forall r, ~ isLeg r -> Some r <> neck -> sk' r = sk r.

(** At the end of the body timeline: nothing is pending, and the neck,
    if there is one, looks at the viewer. *)
Definition settled (s : RhinoState) : Prop :=
  exists sk' x lp lt t1 t2,
    shaped s sk' x true lp [] lt [(PauseLegs, t2); (PlayLegs, t1)]
    /\ x = -9.5 /\ 5 <= t1 - now /\ 9 <= t2 - now
    /\ (forall n, neck = Some n ->
          quaternion (sk' n)
          = slerpQuaternions (quaternion (sk n)) lookAtViewerQuat 1)
    /\ forall r, ~ isLeg r -> Some r <> neck -> sk' r = sk r.

(** Where the walk is after the ticks [ticks]. *)
Definition onSchedule (ticks : list R) (s : RhinoState) : Prop :=
  (~ reached now ticks 5 /\ waiting s)
  \/ (reached now ticks 5 /\ ~ reached now ticks 9 /\ striding s)
  \/ (reached now ticks 9 /\ ~ reached now ticks 10.8 /\ is_Some neck
      /\ turning s)
  \/ (reached now ticks 9 /\ (reached now ticks 10.8 \/ neck = None)
      /\ settled s).

End Stages.

End Rhino.

(** ** Concrete inputs

    The scenes and states on which the statements below are evaluated. *)

Module Examples.

(** A stand-in for the libraries' curves: linear easing, and an
    interpolation that jumps to its end point. *)
Definition linearLibrary : Library :=
  {| ease := fun _ p => p; slerpQuaternions := fun _ qb _ => qb |}.

(** One vertex resting at (2, 0, 0), cached. *)
Definition oneVertex : BufferGeometry :=
  {| position := [2; 0; 0]; needsUpdate := false; normalsComputed := true;
     originalPositions := Some [2; 0; 0] |}.

Definition horn : Mesh := mkMesh "horn" 0.
Definition plane : Mesh := mkMesh "plane" 1.
Definition pole : Mesh := mkMesh "pole" 2.
Definition ring : Mesh := mkMesh "ring" 3.
Definition knob : Mesh := mkMesh "knob" 4.

(** The scenario of the specification: the vertex (2, 0, 0), an
    amplitude scale of 1. *)
Definition scenario : FlagState :=
  {| geometries := fun _ => oneVertex;
     flagRef := {| primary := Some horn; secondary := Some plane;
                   tertiary := None; quaternary := None;
                   quincenternary := None |};
     waveStrength := 1; isClickable := false; tween := Decaying 4;
     rotationY := PI * 2; warnings := []; navigated := false;
     cursor := CursorDefault; rippled := [] |}.

(** A waving flag with one vertex on the anchored edge. *)
Definition anchoredVertex : BufferGeometry :=
  {| position := [-2; 1; 3]; needsUpdate := false; normalsComputed := true;
     originalPositions := Some [-2; 1; 3] |}.

Definition waving : FlagState :=
  {| geometries := fun _ => anchoredVertex;
     flagRef := {| primary := Some horn; secondary := Some plane;
                   tertiary := Some pole; quaternary := None;
                   quincenternary := None |};
     waveStrength := 5; isClickable := false; tween := Decaying 4;
     rotationY := PI * 2; warnings := []; navigated := false;
     cursor := CursorDefault; rippled := [] |}.

(** The same component at rest: amplitude scale 0. *)
Definition still : FlagState :=
  {| geometries := fun _ => oneVertex;
     flagRef := flagRef scenario;
     waveStrength := 0; isClickable := true; tween := NoTween;
     rotationY := PI * 2; warnings := []; navigated := false;
     cursor := CursorDefault; rippled := [] |}.

(** Geometries of 4, 2, 2, 1 and 1 vertices (and none elsewhere). *)
Definition flat (n : nat) : BufferGeometry :=
  {| position := repeat 0 (n * 3); needsUpdate := false;
     normalsComputed := false; originalPositions := None |}.

Definition store : Geometries :=
  fun r => match r with
           | 0%nat => flat 2
           | 1%nat => flat 4
           | 2%nat => flat 1
           | 3%nat => flat 2
           | 4%nat => flat 1
           | _ => flat 0
           end.

Definition sceneOf (nodes : list Object3D) : FlagScene :=
  {| rootMounted := true; flagLookup := FlagGroup nodes |}.

Definition twoMeshes : list Object3D :=
  [OtherObject "Flag"; MeshObject horn; MeshObject plane].
Definition fiveMeshes : list Object3D :=
  [OtherObject "Flag"; MeshObject horn; MeshObject plane; MeshObject pole;
   MeshObject ring; MeshObject knob].

(** A skeleton with the four leg joints, the neck and a spine, and
    scenes that show all of them, all but the neck, all but one leg. *)
Definition restPose : Quaternion := mkQuat 0 0 0 1.

Definition joints : Skeleton :=
  fun r => match r with
           | 0%nat => mkBone "Front_leg_1_L" restPose
           | 1%nat => mkBone "Back_leg_1_L" restPose
           | 2%nat => mkBone "Front_leg_1_R" restPose
           | 3%nat => mkBone "Back_leg_1_R" restPose
           | 4%nat => mkBone "Neck_mover_bone" restPose
           | _ => mkBone "Spine" restPose
           end.

Definition rhino : RhinoScene :=
  {| groupMounted := true;
     rhinoNodes := [PlainNode; BoneNode 5; BoneNode 0; BoneNode 1;
                    BoneNode 2; BoneNode 3; BoneNode 4] |}.

Definition rhinoWithoutNeck : RhinoScene :=
  {| groupMounted := true;
     rhinoNodes := [PlainNode; BoneNode 5; BoneNode 0; BoneNode 1;
                    BoneNode 2; BoneNode 3] |}.

Definition rhinoWithoutLeg : RhinoScene :=
  {| groupMounted := true;
     rhinoNodes := [PlainNode; BoneNode 5; BoneNode 0; BoneNode 1;
                    BoneNode 2; BoneNode 4] |}.

End Examples.

(** ** More concrete inputs *)

Module Cases.

Definition missingGroup : FlagScene :=
  {| rootMounted := true; flagLookup := Missing |}.

Definition unmounted : FlagScene :=
  {| rootMounted := false; flagLookup := FlagGroup Examples.fiveMeshes |}.

(** A store with one triangle (three vertices) behind every reference. *)
Definition triangle : BufferGeometry :=
  {| position := [-2; 0; 0; 0; 1; 0; 2; 0; 1]; needsUpdate := false;
     normalsComputed := false; originalPositions := None |}.

Definition triangles : Geometries := fun _ => triangle.

(** What the host may do to the flag in a few seconds. *)
Definition session : list Flag.Event :=
  [Flag.Tick 1; Flag.Frame 1; Flag.PointerOver; Flag.Tick 4; Flag.Frame 4;
   Flag.Tick 6; Flag.Frame 6; Flag.Click; Flag.Tick 9; Flag.Frame 9;
   Flag.Click; Flag.PointerOut].

(** A stand-in for the libraries whose interpolation has the two end
    points of the real one: the first orientation at 0, the second from
    there on. *)
Definition endpointLibrary : Library :=
  {| ease := fun _ p => p;
     slerpQuaternions := fun qa qb t => if Req_EM_T t 0 then qa else qb |}.

(** A scene in which two bones carry the neck's name. *)
Definition twoNecks : RhinoScene :=
  {| groupMounted := true;
     rhinoNodes := [BoneNode 4; BoneNode 0; BoneNode 1; BoneNode 2;
                    BoneNode 3; PlainNode; BoneNode 9] |}.

Definition jointsTwoNecks : Skeleton :=
  fun r => match r with
           | 9%nat => mkBone "Neck_mover_bone" Examples.restPose
           | _ => Examples.joints r
           end.

(** The flag component at rest with its interactive flag set. *)
Definition interactive : FlagState :=
  {| geometries := Examples.store; flagRef := noTargets; waveStrength := 0;
     isClickable := true; tween := NoTween; rotationY := 0;
     warnings := []; navigated := false; cursor := CursorDefault;
     rippled := [] |}.

Definition unmountedRhino : RhinoScene :=
  {| groupMounted := false; rhinoNodes := rhinoNodes Examples.rhino |}.

End Cases.

(** ** What the host's runs keep *)

Module Host.

(** The sequencer times among the events of a run, in order. *)
Definition tickTimes (es : list Flag.Event) : list R :=
  omap (fun e => match e with
                 | Flag.Tick now => Some now
                 | _ => None
                 end) es.

(** The amplitude is within what the two tweens give it, and a decay
    in progress started no later than the ticks [ts] still to come. *)
Definition decaysBefore (ts : list R) (s : FlagState) : Prop :=
  0 <= waveStrength s <= 5
  /\ forall t0, tween s = Decaying t0 -> Forall (Rle t0) ts.

(** The geometry [g] is the geometry [r] of the store [h], or one
    pass over it with an amplitude that the decay can produce. *)
Definition onePass (h : Geometries) (r : Ref) (g : BufferGeometry) : Prop :=
  g = h r
  \/ exists time a,
       0 < a <= 5
       /\ g = RippleField.rippleGeometry time (RippleField.baseHeight * a) (h r).

(** The flag's state with the interactive flag put aside. *)
Definition butClickable (s : FlagState) : FlagState :=
  {| geometries := geometries s; flagRef := flagRef s;
     waveStrength := waveStrength s; isClickable := false;
     tween := tween s; rotationY := rotationY s;
     warnings := warnings s; navigated := navigated s;
     cursor := cursor s; rippled := rippled s |}.

(** The mascot's state [s'] has the joints of [s] under their names. *)
Definition sameJoints (s s' : RhinoState) : Prop :=
  bones s' = bones s
  /\ rhinoWarnings s' = rhinoWarnings s
  /\ forall r, bone_name (skeleton s' r) = bone_name (skeleton s r).

(** A step that does not animate the root's position. *)
Definition keepsRoot (st : Step) : Prop :=
  match st with
  | To (RootX _ _) _ _ => False
  | _ => True
  end.

(** A step that animates the root's position, if at all, between two
    values of the segment from [a] to [b]. *)
Definition rootWithin (a b : R) (st : Step) : Prop :=
  match st with
  | To (RootX from to) _ _ => a <= from <= b /\ a <= to <= b
  | _ => True
  end.

(** The root is on the segment from [a] to [b], and nothing that the
    timelines still hold takes it off. *)
Definition rooted (a b : R) (s : RhinoState) : Prop :=
  a <= positionX s <= b
  /\ forall tl, timelines s = Some tl ->
       Forall keepsRoot (loopSteps (legTl tl))
       /\ Forall (rootWithin a b) (snd <$> pending (bodyTl tl)).

End Host.

(* ================================================================== *)
(** * Part II: properties *)
(* ================================================================== *)

(** ** The ripple loop, cell by cell *)

Section RippleLoop.
Import RippleField.
Variables (time waveHeight : R) (original : list R).

Lemma rippleVertex_length array i :
  length (rippleVertex time waveHeight original array i) = length array.
Proof. unfold rippleVertex. now rewrite !length_insert. Qed.

Lemma rippleLoop_S n array :
  rippleLoop time waveHeight original (S n) array =
  rippleVertex time waveHeight original
    (rippleLoop time waveHeight original n array) n.
Proof. unfold rippleLoop. now rewrite seq_S, fold_left_app. Qed.

Lemma rippleLoop_length n array :
  length (rippleLoop time waveHeight original n array) = length array.
Proof.
  induction n as [|n IH]; [reflexivity|].
  now rewrite rippleLoop_S, rippleVertex_length.
Qed.

Lemma cell_0 i : cell time waveHeight original (i * 3) = read original (i * 3).
Proof.
  unfold cell. rewrite Nat.div_mul by lia.
  now rewrite decide_True.
Qed.

Lemma cell_1 i :
  cell time waveHeight original (i * 3 + 1) =
  read original (i * 3 + 1) + wave time waveHeight (read original (i * 3)).
Proof.
  unfold cell. rewrite Nat.div_add_l by lia. cbn [Nat.div Nat.divmod fst]. rewrite Nat.add_0_r.
  now rewrite decide_False by lia.
Qed.

Lemma cell_2 i :
  cell time waveHeight original (i * 3 + 2) =
  read original (i * 3 + 2) + wave time waveHeight (read original (i * 3)).
Proof.
  unfold cell. rewrite Nat.div_add_l by lia. cbn [Nat.div Nat.divmod fst]. rewrite Nat.add_0_r.
  now rewrite decide_False by lia.
Qed.

(** After [n] iterations the cells of the first [n] vertices hold the
    displaced rest positions and every other cell is as it was. *)
Lemma rippleLoop_lookup n array j :
  rippleLoop time waveHeight original n array !! j =
  if decide (j < n * 3)%nat
  then (fun _ => cell time waveHeight original j) <$> array !! j
  else array !! j.
Proof.
  induction n as [|n IH] in j |- *.
  - now rewrite decide_False by lia.
  - rewrite rippleLoop_S. unfold rippleVertex.
    rewrite !list_lookup_insert, !length_insert, rippleLoop_length, IH.
    destruct (array !! j) eqn:E;
      [apply lookup_lt_Some in E | apply lookup_ge_None in E];
      repeat case_decide; simpl; try lia; try reflexivity;
      repeat match goal with
             | H : _ ∧ _ |- _ => destruct H as [<- _]
             end;
      now rewrite ?cell_0, ?cell_1, ?cell_2.
Qed.

End RippleLoop.

(** ** The frame callback on the geometry store *)

Section RippleGeometry.
Import RippleField.

Lemma rippleGeometry_original time h g :
  originalPositions (rippleGeometry time h g) = originalPositions g.
Proof.
  unfold rippleGeometry.
  destruct (originalPositions g) eqn:E; cbn; congruence.
Qed.

Lemma rippleGeometry_length time h g :
  length (position (rippleGeometry time h g)) = length (position g).
Proof.
  unfold rippleGeometry. destruct (originalPositions g); [|reflexivity].
  apply rippleLoop_length.
Qed.

Lemma rippleGeometry_count time h g :
  count (rippleGeometry time h g) = count g.
Proof. unfold count. now rewrite rippleGeometry_length. Qed.

(** A pass overwrites whatever an earlier pass wrote: the result
    depends on the cache, not on the displaced buffer. *)
Lemma rippleGeometry_absorb t1 h1 t2 h2 g :
  rippleGeometry t2 h2 (rippleGeometry t1 h1 g) = rippleGeometry t2 h2 g.
Proof.
  destruct g as [pos nu nc [o|]]; [|reflexivity].
  unfold rippleGeometry, count.
  cbn [originalPositions position needsUpdate normalsComputed].
  rewrite rippleLoop_length. f_equal.
  apply list_eq. intros j. rewrite !rippleLoop_lookup.
  case_decide; [|reflexivity].
  now destruct (pos !! j).
Qed.

Lemma rippleMesh_geometries time h m s r :
  geometries (Flag.rippleMesh time h m s) r =
  if decide (geometry m = r)
  then rippleGeometry time h (geometries s r)
  else geometries s r.
Proof.
  cbn. unfold insert, fn_insert. case_decide; [subst|]; reflexivity.
Qed.

Lemma rippleAll_geometries time h ms s r :
  geometries (Flag.rippleAll time h ms s) r =
  if decide (r ∈ geometry <$> ms)
  then rippleGeometry time h (geometries s r)
  else geometries s r.
Proof.
  unfold Flag.rippleAll.
  induction ms as [|m ms IH] in s |- *; cbn [fold_left].
  - rewrite decide_False; [reflexivity|]. cbn. apply not_elem_of_nil.
  - rewrite IH, rippleMesh_geometries, fmap_cons.
    destruct (decide (geometry m = r)) as [->|Hne].
    + rewrite (decide_True (P := (_ ∈ _ :: _))) by apply list_elem_of_here.
      case_decide; [apply rippleGeometry_absorb|reflexivity].
    + case_decide as Hin.
      * rewrite decide_True; [reflexivity|]. now apply list_elem_of_further.
      * rewrite decide_False; [reflexivity|].
        intros [?|?]%elem_of_cons; congruence.
Qed.

Lemma rippleAll_simple time h ms s :
  flagRef (Flag.rippleAll time h ms s) = flagRef s /\
  waveStrength (Flag.rippleAll time h ms s) = waveStrength s /\
  isClickable (Flag.rippleAll time h ms s) = isClickable s /\
  tween (Flag.rippleAll time h ms s) = tween s /\
  navigated (Flag.rippleAll time h ms s) = navigated s.
Proof.
  unfold Flag.rippleAll.
  induction ms as [|m ms IH] in s |- *; cbn [fold_left]; [tauto|].
  destruct (IH (Flag.rippleMesh time h m s)) as (-> & -> & -> & -> & ->).
  cbn. tauto.
Qed.

(** The frame callback is the early exit or one pass over the targets. *)
Lemma useFrame_cases time s :
  Flag.useFrame time s = s \/
  (0 < waveStrength s /\
   Flag.useFrame time s =
   Flag.rippleAll time (baseHeight * waveStrength s)
     (Flag.targetMeshes (flagRef s)) s).
Proof.
  unfold Flag.useFrame.
  destruct (Rle_dec (waveStrength s) 0) as [|Hpos]; [now left|].
  destruct (flagRef s) as [[p|] [q|] [t|] [u|] [v|]] eqn:E; cbn;
    try (now left); right; (split; [lra|]); reflexivity.
Qed.

Lemma useFrame_active time s p q :
  0 < waveStrength s ->
  primary (flagRef s) = Some p -> secondary (flagRef s) = Some q ->
  Flag.useFrame time s =
  Flag.rippleAll time (baseHeight * waveStrength s)
    (Flag.targetMeshes (flagRef s)) s.
Proof.
  intros Hpos Hp Hq. unfold Flag.useFrame.
  destruct (Rle_dec (waveStrength s) 0) as [|_]; [lra|].
  rewrite Hp, Hq.
  destruct (flagRef s) as [p' q' [t|] [u|] [v|]]; cbn in *; subst; reflexivity.
Qed.

Lemma useFrame_waveStrength time s :
  waveStrength (Flag.useFrame time s) = waveStrength s.
Proof.
  destruct (useFrame_cases time s) as [->|[_ ->]]; [reflexivity|].
  apply rippleAll_simple.
Qed.

Lemma useFrame_flagRef time s :
  flagRef (Flag.useFrame time s) = flagRef s.
Proof.
  destruct (useFrame_cases time s) as [->|[_ ->]]; [reflexivity|].
  apply rippleAll_simple.
Qed.

Lemma useFrame_idle time s :
  waveStrength s <= 0 \/ primary (flagRef s) = None
    \/ secondary (flagRef s) = None ->
  Flag.useFrame time s = s.
Proof.
  intros Hidle. unfold Flag.useFrame.
  destruct (Rle_dec (waveStrength s) 0) as [|Hpos]; [reflexivity|].
  destruct (primary (flagRef s)), (secondary (flagRef s)); try reflexivity.
  destruct Hidle as [?|[?|?]]; [lra|discriminate..].
Qed.

(** What a frame leaves in the geometry [r]. *)
Lemma useFrame_geometries time s p q r :
  0 < waveStrength s ->
  primary (flagRef s) = Some p -> secondary (flagRef s) = Some q ->
  geometries (Flag.useFrame time s) r =
  if decide (r ∈ geometry <$> Flag.targetMeshes (flagRef s))
  then rippleGeometry time (baseHeight * waveStrength s) (geometries s r)
  else geometries s r.
Proof.
  intros Hpos Hp Hq.
  rewrite (useFrame_active time s p q Hpos Hp Hq).
  apply rippleAll_geometries.
Qed.

(** Two passes in a row leave what the second one alone leaves. *)
Lemma useFrame_absorb t1 t2 s r :
  geometries (Flag.useFrame t2 (Flag.useFrame t1 s)) r =
  geometries (Flag.useFrame t2 s) r.
Proof.
  destruct (Rle_dec (waveStrength s) 0) as [Hle|Hpos].
  { now rewrite (useFrame_idle t1 s) by now left. }
  destruct (primary (flagRef s)) as [p|] eqn:Hp.
  2: { now rewrite (useFrame_idle t1 s) by now (right; left). }
  destruct (secondary (flagRef s)) as [q|] eqn:Hq.
  2: { now rewrite (useFrame_idle t1 s) by now (right; right). }
  assert (0 < waveStrength s) as Hpos' by lra.
  rewrite (useFrame_geometries t2 (Flag.useFrame t1 s) p q),
          (useFrame_geometries t2 s p q),
          (useFrame_geometries t1 s p q);
    rewrite ?useFrame_waveStrength, ?useFrame_flagRef; try assumption.
  repeat case_decide; try reflexivity.
  apply rippleGeometry_absorb.
Qed.

Lemma useFrame_iter n time s r :
  geometries (Nat.iter (S n) (Flag.useFrame time) s) r =
  geometries (Flag.useFrame time s) r.
Proof.
  induction n as [|n IH] in s |- *; [reflexivity|].
  rewrite Nat.iter_succ_r, IH. apply useFrame_absorb.
Qed.

Lemma useFrame_original time s r :
  originalPositions (geometries (Flag.useFrame time s) r) =
  originalPositions (geometries s r).
Proof.
  destruct (useFrame_cases time s) as [->|[_ ->]]; [reflexivity|].
  rewrite rippleAll_geometries. case_decide; [|reflexivity].
  apply rippleGeometry_original.
Qed.

(** The cells of a vertex that the cache holds, after one pass over
    the geometry. *)
Lemma rippleGeometry_vertex time h g original i x y z :
  originalPositions g = Some original ->
  length original = length (position g) ->
  vertex original i = Some (x, y, z) ->
  vertex (position (rippleGeometry time h g)) i =
    Some (x, y + wave time h x, z + wave time h x)
  /\ needsUpdate (rippleGeometry time h g) = true.
Proof.
  intros Ho Hlen Hv. unfold rippleGeometry. rewrite Ho.
  cbn [position needsUpdate]. split; [|reflexivity].
  unfold vertex in *.
  destruct (original !! (i * 3)%nat) as [x'|] eqn:Ex; [|discriminate].
  destruct (original !! (i * 3 + 1)%nat) as [y'|] eqn:Ey; [|discriminate].
  destruct (original !! (i * 3 + 2)%nat) as [z'|] eqn:Ez; [|discriminate].
  injection Hv as -> -> ->.
  assert (i < count g)%nat as Hi.
  { apply lookup_lt_Some in Ez. unfold count.
    apply Nat.div_le_lower_bound; lia. }
  rewrite !rippleLoop_lookup, !decide_True by lia.
  rewrite cell_0, cell_1, cell_2. unfold read.
  rewrite (nth_lookup_Some _ _ _ _ Ex), (nth_lookup_Some _ _ _ _ Ey),
          (nth_lookup_Some _ _ _ _ Ez).
  pose proof (lookup_lt_Some _ _ _ Ex) as Lx.
  pose proof (lookup_lt_Some _ _ _ Ey) as Ly.
  pose proof (lookup_lt_Some _ _ _ Ez) as Lz.
  rewrite Hlen in Lx, Ly, Lz.
  apply lookup_lt_is_Some in Lx as [? ->], Ly as [? ->], Lz as [? ->].
  reflexivity.
Qed.

End RippleGeometry.

(** ** The displacement field *)

Section Displacement.
Import RippleField.

Lemma edgeFactor_clamp x : edgeFactor x = clamp ((x + 2) / 4) 0 1.
Proof.
  unfold edgeFactor, clamp, width. do 2 f_equal. lra.
Qed.

Lemma edgeFactor_range x : 0 <= edgeFactor x <= 1.
Proof.
  unfold edgeFactor. split.
  - apply Rmin_glb; [apply Rmax_r|lra].
  - apply Rmin_r.
Qed.

Lemma edgeFactor_anchored x : x <= - (width / 2) -> edgeFactor x = 0.
Proof.
  unfold edgeFactor, width. intros Hx.
  rewrite Rmax_right by lra. apply Rmin_left. lra.
Qed.

Lemma edgeFactor_free x : width / 2 <= x -> edgeFactor x = 1.
Proof.
  unfold edgeFactor, width. intros Hx.
  rewrite Rmax_left by lra. apply Rmin_right. lra.
Qed.

Lemma edgeFactor_inside x :
  - (width / 2) <= x <= width / 2 -> edgeFactor x = (x + 2) / 4.
Proof.
  unfold edgeFactor, width. intros Hx.
  rewrite Rmax_left by lra. rewrite Rmin_left by lra. lra.
Qed.

(** The loop's displacement is the contract's. *)
Lemma wave_displace x y z time amplitudeScale :
  (x, y + wave time (baseHeight * amplitudeScale) x,
      z + wave time (baseHeight * amplitudeScale) x)
  = displace (x, y, z) time amplitudeScale.
Proof.
  unfold displace, wave. rewrite edgeFactor_clamp.
  unfold baseHeight, waveSpeed, waveLength. reflexivity.
Qed.

Lemma sin_1_bounds : 0.841468 < sin 1 < 0.841472.
Proof.
  pose proof PI2_1 as HPI.
  destruct (SIN 1) as [Hl Hu]; [lra|lra|].
  unfold sin_lb, sin_ub, sin_approx, sin_term in Hl, Hu.
  cbn [sum_f_R0 Nat.mul Nat.add] in Hl, Hu.
  rewrite !INR_IZR_INZ in Hl. rewrite !INR_IZR_INZ in Hu.
  rewrite !pow1 in Hl, Hu.
  change (Z.of_nat (fact 1)) with 1%Z in Hl, Hu.
  change (Z.of_nat (fact 3)) with 6%Z in Hl, Hu.
  change (Z.of_nat (fact 5)) with 120%Z in Hl, Hu.
  change (Z.of_nat (fact 7)) with 5040%Z in Hl, Hu.
  replace (Z.of_nat (fact 9)) with 362880%Z in Hu by (vm_compute; reflexivity).
  cbn [pow] in Hl, Hu.
  lra.
Qed.

Lemma cos_1_bounds : 0.540277 < cos 1 < 0.540303.
Proof.
  pose proof PI2_1 as HPI.
  destruct (COS 1) as [Hl Hu]; [lra|lra|].
  unfold cos_lb, cos_ub, cos_approx, cos_term in Hl, Hu.
  cbn [sum_f_R0 Nat.mul Nat.add] in Hl, Hu.
  rewrite !INR_IZR_INZ in Hl. rewrite !INR_IZR_INZ in Hu.
  rewrite !pow1 in Hl, Hu.
  change (Z.of_nat (fact 0)) with 1%Z in Hl, Hu.
  change (Z.of_nat (fact 2)) with 2%Z in Hl, Hu.
  change (Z.of_nat (fact 4)) with 24%Z in Hl, Hu.
  change (Z.of_nat (fact 6)) with 720%Z in Hl, Hu.
  replace (Z.of_nat (fact 8)) with 40320%Z in Hu by (vm_compute; reflexivity).
  cbn [pow] in Hl, Hu.
  lra.
Qed.

(** [sin 4] through the double-angle formulas from [sin 1] and [cos 1]. *)
Lemma sin_4_bounds : -0.75682 < sin 4 < -0.75674.
Proof.
  pose proof sin_1_bounds as [Sl Su].
  pose proof cos_1_bounds as [Cl Cu].
  replace 4 with (2 * (2 * 1)) by lra.
  rewrite sin_2a, cos_2a_sin, sin_2a.
  set (s := sin 1) in *. set (c := cos 1) in *.
  assert (0.454624 < s * c < 0.454650) by nra.
  assert (0.708068 < s * s < 0.708076) by nra.
  nra.
Qed.

(** What a frame leaves at a cached vertex of a target. *)
Lemma useFrame_vertex s time p q m original i x y z :
  0 < waveStrength s ->
  primary (flagRef s) = Some p -> secondary (flagRef s) = Some q ->
  m ∈ Flag.targetMeshes (flagRef s) ->
  originalPositions (geometries s (geometry m)) = Some original ->
  length original = length (position (geometries s (geometry m))) ->
  vertex original i = Some (x, y, z) ->
  vertex (position (geometries (Flag.useFrame time s) (geometry m))) i
    = Some (displace (x, y, z) time (waveStrength s))
  /\ needsUpdate (geometries (Flag.useFrame time s) (geometry m)) = true.
Proof.
  intros Hpos Hp Hq Hm Ho Hlen Hv.
  rewrite (useFrame_geometries time s p q _ Hpos Hp Hq).
  rewrite decide_True by (apply list_elem_of_fmap; eauto).
  rewrite <- wave_displace.
  now apply rippleGeometry_vertex with (original := original).
Qed.

End Displacement.

(** C1. For a positive amplitude scale the frame callback leaves, at
    every cached vertex (x, y, z) of every target, the vertex
    (x, y + wave, z + wave) with
    edge = clamp((x + 2) / 4, 0, 1) and
    wave = sin(t * 4.2 + x * 2.0) * (0.15 * amplitudeScale) * edge.
    For the rest position (2, 0, 0) at t = 0 and amplitude scale 1 the
    result is (2, sin 4 * 0.15, sin 4 * 0.15), and sin 4 * 0.15 is
    -0.1135 to four decimals. *)
Theorem C1_ripple_displacement :
  (forall (s : FlagState) (time : R) (p q m : Mesh) (original : list R)
          (i : nat) (x y z : R),
      0 < waveStrength s ->
      primary (flagRef s) = Some p -> secondary (flagRef s) = Some q ->
      m ∈ Flag.targetMeshes (flagRef s) ->
      originalPositions (geometries s (geometry m)) = Some original ->
      length original = length (position (geometries s (geometry m))) ->
      RippleField.vertex original i = Some (x, y, z) ->
      let amplitudeScale := waveStrength s in
      let edge := Rmin (Rmax ((x + 2) / 4) 0) 1 in
      let wave := sin (time * 4.2 + x * 2.0) * (0.15 * amplitudeScale) * edge in
      RippleField.vertex
        (position (geometries (Flag.useFrame time s) (geometry m))) i
      = Some (x, y + wave, z + wave))
  /\ RippleField.vertex
       (position (geometries (Flag.useFrame 0 Examples.scenario) 0%nat)) 0
     = Some (2, sin 4 * 0.15, sin 4 * 0.15)
  /\ -0.11355 < sin 4 * 0.15 < -0.11345.
Proof.
  assert (G : forall (s : FlagState) (time : R) (p q m : Mesh)
                     (original : list R) (i : nat) (x y z : R),
      0 < waveStrength s ->
      primary (flagRef s) = Some p -> secondary (flagRef s) = Some q ->
      m ∈ Flag.targetMeshes (flagRef s) ->
      originalPositions (geometries s (geometry m)) = Some original ->
      length original = length (position (geometries s (geometry m))) ->
      RippleField.vertex original i = Some (x, y, z) ->
      RippleField.vertex
        (position (geometries (Flag.useFrame time s) (geometry m))) i
      = Some (x, y + sin (time * 4.2 + x * 2.0) * (0.15 * waveStrength s)
                     * Rmin (Rmax ((x + 2) / 4) 0) 1,
                 z + sin (time * 4.2 + x * 2.0) * (0.15 * waveStrength s)
                     * Rmin (Rmax ((x + 2) / 4) 0) 1)).
  { intros s time p q m original i x y z Hpos Hp Hq Hm Ho Hlen Hv.
    destruct (useFrame_vertex s time p q m original i x y z) as [-> _];
      auto. }
  split; [exact G|split].
  - transitivity
      (Some (2, 0 + sin (0 * 4.2 + 2 * 2.0) * (0.15 * 1)
                    * Rmin (Rmax ((2 + 2) / 4) 0) 1,
                0 + sin (0 * 4.2 + 2 * 2.0) * (0.15 * 1)
                    * Rmin (Rmax ((2 + 2) / 4) 0) 1)).
    + apply (G Examples.scenario 0 Examples.horn Examples.plane Examples.horn
               [2; 0; 0] 0%nat 2 0 0); try reflexivity.
      * cbn. lra.
      * apply list_elem_of_here.
    + replace (0 * 4.2 + 2 * 2.0) with 4 by lra.
      replace ((2 + 2) / 4) with 1 by lra.
      rewrite Rmax_left by lra. rewrite Rmin_left by lra.
      do 3 f_equal; lra.
  - pose proof sin_4_bounds. lra.
Qed.

(** The general statement of C1 at the scenario's state. *)
Lemma C1_ripple_displacement_witness :
  RippleField.vertex
    (position (geometries (Flag.useFrame 0 Examples.scenario) 0%nat)) 0
  = Some (2, 0 + sin (0 * 4.2 + 2 * 2.0) * (0.15 * 1)
                 * Rmin (Rmax ((2 + 2) / 4) 0) 1,
             0 + sin (0 * 4.2 + 2 * 2.0) * (0.15 * 1)
                 * Rmin (Rmax ((2 + 2) / 4) 0) 1).
Proof.
  apply (proj1 C1_ripple_displacement Examples.scenario 0
           Examples.horn Examples.plane Examples.horn [2; 0; 0] 0%nat 2 0 0).
  - cbn. lra.
  - reflexivity.
  - reflexivity.
  - apply list_elem_of_here.
  - reflexivity.
  - reflexivity.
  - reflexivity.
Defined.

(** C8. In a frame whose amplitude scale is not positive the callback
    returns at once: the state is the one it was given, so every vertex
    buffer and every dirty flag is as before and [rippleMesh] was not
    called. *)
Theorem C8_pass_skipped_without_amplitude :
  forall (s : FlagState) (time : R),
    waveStrength s <= 0 ->
    Flag.useFrame time s = s
    /\ (forall r : Ref,
          position (geometries (Flag.useFrame time s) r)
            = position (geometries s r)
          /\ needsUpdate (geometries (Flag.useFrame time s) r)
            = needsUpdate (geometries s r))
    /\ rippled (Flag.useFrame time s) = rippled s.
Proof.
  intros s time Hle.
  rewrite (useFrame_idle time s) by now left.
  repeat split.
Qed.

Lemma C8_pass_skipped_without_amplitude_witness :
  Flag.useFrame 7 Examples.still = Examples.still
  /\ (forall r : Ref,
        position (geometries (Flag.useFrame 7 Examples.still) r)
          = position (geometries Examples.still r)
        /\ needsUpdate (geometries (Flag.useFrame 7 Examples.still) r)
          = needsUpdate (geometries Examples.still r))
  /\ rippled (Flag.useFrame 7 Examples.still) = rippled Examples.still.
Proof.
  apply (C8_pass_skipped_without_amplitude Examples.still 7).
  cbn. lra.
Defined.

(** C9, as the claim states it, fails: at t = (2 pi - 4) / 4.2 the
    vertex at x = width / 2 (edge 1) is not displaced at all, while the
    vertex at x = 2 - pi / 4 (edge below 1) is. *)
Lemma C9_counterexample :
  RippleField.edgeFactor (RippleField.width / 2) = 1
  /\ RippleField.edgeFactor (2 - PI / 4) < 1
  /\ Rabs (RippleField.wave ((2 * PI - 4) / 4.2) (0.15 * 1)
             (RippleField.width / 2))
     < Rabs (RippleField.wave ((2 * PI - 4) / 4.2) (0.15 * 1) (2 - PI / 4)).
Proof.
  pose proof PI_RGT_0 as Hpi0. pose proof PI_4 as Hpi4.
  split; [apply edgeFactor_free; lra|].
  assert (E : RippleField.edgeFactor (2 - PI / 4) = 1 - PI / 16).
  { rewrite edgeFactor_inside; unfold RippleField.width; lra. }
  split; [lra|].
  unfold RippleField.wave. rewrite E.
  rewrite edgeFactor_free by lra.
  unfold RippleField.waveSpeed, RippleField.waveLength, RippleField.width.
  replace ((2 * PI - 4) / 4.2 * 4.2 + 4 / 2 * 2.0) with (2 * PI) by lra.
  replace ((2 * PI - 4) / 4.2 * 4.2 + (2 - PI / 4) * 2.0)
    with (3 * (PI / 2)) by lra.
  rewrite sin_2PI, sin_3PI2.
  replace (0 * (0.15 * 1) * 1) with 0 by lra.
  rewrite Rabs_R0.
  apply Rabs_pos_lt. nra.
Qed.

(** C9, amended.  A vertex resting at x = -width / 2 is never displaced,
    whatever the time and the amplitude scale.  At any vertex the
    magnitude of the displacement is at most
    0.15 * |amplitudeScale| * edge at every time, and equal to it at
    some time: that is the vertex's peak, and it is largest at edge = 1
    (x = width / 2).  So the free edge has the largest peak: at some
    time its displacement is 0.15 * |amplitudeScale| in magnitude, which
    no vertex exceeds at any time.  Only the comparison at one and the
    same time is lost. *)
Theorem C9_anchored_edge_and_envelope :
  (forall t amplitudeScale : R,
      RippleField.edgeFactor (- (RippleField.width / 2)) = 0
      /\ RippleField.wave t (RippleField.baseHeight * amplitudeScale)
           (- (RippleField.width / 2)) = 0)
  /\ (forall (s : FlagState) (time : R) (p q m : Mesh) (original : list R)
             (i : nat) (y z : R),
        0 < waveStrength s ->
        primary (flagRef s) = Some p -> secondary (flagRef s) = Some q ->
        m ∈ Flag.targetMeshes (flagRef s) ->
        originalPositions (geometries s (geometry m)) = Some original ->
        length original = length (position (geometries s (geometry m))) ->
        RippleField.vertex original i
          = Some (- (RippleField.width / 2), y, z) ->
        RippleField.vertex
          (position (geometries (Flag.useFrame time s) (geometry m))) i
        = Some (- (RippleField.width / 2), y, z))
  /\ (forall t amplitudeScale x : R,
        Rabs (RippleField.wave t (RippleField.baseHeight * amplitudeScale) x)
          <= 0.15 * Rabs amplitudeScale * RippleField.edgeFactor x
        /\ RippleField.edgeFactor x
          <= RippleField.edgeFactor (RippleField.width / 2)
        /\ RippleField.edgeFactor (RippleField.width / 2) = 1)
  /\ (forall amplitudeScale x : R,
        exists t : R,
          Rabs (RippleField.wave t (RippleField.baseHeight * amplitudeScale) x)
          = 0.15 * Rabs amplitudeScale * RippleField.edgeFactor x)
  /\ (forall amplitudeScale : R,
        exists t0 : R,
          Rabs (RippleField.wave t0 (RippleField.baseHeight * amplitudeScale)
                  (RippleField.width / 2))
          = 0.15 * Rabs amplitudeScale
          /\ forall t x : R,
               Rabs (RippleField.wave t
                       (RippleField.baseHeight * amplitudeScale) x)
               <= Rabs (RippleField.wave t0
                          (RippleField.baseHeight * amplitudeScale)
                          (RippleField.width / 2))).
Proof.
  assert (Z0 : forall t a,
             RippleField.wave t (RippleField.baseHeight * a)
               (- (RippleField.width / 2)) = 0).
  { intros t a. unfold RippleField.wave.
    rewrite edgeFactor_anchored by lra. lra. }
  assert (Efree : RippleField.edgeFactor (RippleField.width / 2) = 1)
    by (apply edgeFactor_free; lra).
  assert (Bound : forall t a x,
             Rabs (RippleField.wave t (RippleField.baseHeight * a) x)
             <= 0.15 * Rabs a * RippleField.edgeFactor x).
  { intros t a x.
    pose proof (edgeFactor_range x) as [E0 E1].
    pose proof (SIN_bound (t * RippleField.waveSpeed
                           + x * RippleField.waveLength)) as [S0 S1].
    unfold RippleField.wave, RippleField.baseHeight.
    rewrite !Rabs_mult.
    rewrite (Rabs_pos_eq 0.15) by lra.
    rewrite (Rabs_pos_eq (RippleField.edgeFactor x)) by lra.
    assert (Rabs (sin (t * RippleField.waveSpeed
                       + x * RippleField.waveLength)) <= 1)
      by (apply Rabs_le; lra).
    pose proof (Rabs_pos a).
    assert (0 <= 0.15 * Rabs a * RippleField.edgeFactor x)
      by (apply Rmult_le_pos; nra).
    nra. }
  assert (Peak : forall a x,
             Rabs (RippleField.wave
                     ((PI / 2 - x * RippleField.waveLength)
                      / RippleField.waveSpeed)
                     (RippleField.baseHeight * a) x)
             = 0.15 * Rabs a * RippleField.edgeFactor x).
  { intros a x.
    pose proof (edgeFactor_range x) as [E0 E1].
    unfold RippleField.wave, RippleField.baseHeight.
    replace ((PI / 2 - x * RippleField.waveLength) / RippleField.waveSpeed
             * RippleField.waveSpeed + x * RippleField.waveLength)
      with (PI / 2)
      by (unfold RippleField.waveSpeed, RippleField.waveLength; lra).
    rewrite sin_PI2, !Rabs_mult, Rabs_R1.
    rewrite (Rabs_pos_eq 0.15) by lra.
    rewrite (Rabs_pos_eq (RippleField.edgeFactor x)) by lra.
    lra. }
  split; [|split; [|split; [|split]]].
  - intros t a. split; [apply edgeFactor_anchored; lra|apply Z0].
  - intros s time p q m original i y z Hpos Hp Hq Hm Ho Hlen Hv.
    destruct (useFrame_vertex s time p q m original i
                (- (RippleField.width / 2)) y z) as [-> _]; auto.
    rewrite <- wave_displace, Z0. do 3 f_equal; lra.
  - intros t a x.
    pose proof (edgeFactor_range x) as [E0 E1].
    split; [apply Bound|split; [lra|exact Efree]].
  - intros a x. eexists. apply Peak.
  - intros a.
    exists ((PI / 2 - RippleField.width / 2 * RippleField.waveLength)
            / RippleField.waveSpeed).
    rewrite Peak, Efree. split; [lra|].
    intros t x.
    pose proof (edgeFactor_range x) as [E0 E1].
    pose proof (Rabs_pos a) as Ha.
    apply Rle_trans with (0.15 * Rabs a * RippleField.edgeFactor x);
      [apply Bound|].
    assert (0.15 * Rabs a * RippleField.edgeFactor x <= 0.15 * Rabs a * 1)
      by (apply Rmult_le_compat_l; [apply Rmult_le_pos; lra|exact E1]).
    lra.
Qed.

Lemma C9_anchored_edge_and_envelope_witness :
  RippleField.vertex
    (position (geometries (Flag.useFrame 3 Examples.waving) 2%nat)) 0
  = Some (- (RippleField.width / 2), 1, 3).
Proof.
  apply (proj1 (proj2 C9_anchored_edge_and_envelope) Examples.waving 3
           Examples.horn Examples.plane Examples.pole [-2; 1; 3] 0%nat 1 3).
  - cbn. lra.
  - reflexivity.
  - reflexivity.
  - cbn. apply list_elem_of_further, list_elem_of_further, list_elem_of_here.
  - reflexivity.
  - reflexivity.
  - cbn. do 3 f_equal. unfold RippleField.width. lra.
Defined.

(** ** Runs of the flag component *)

Section FlagRuns.
Context `{Library}.

Lemma run_invariant (P : FlagState -> Prop) :
  (forall s e, P s -> P (Flag.step s e)) ->
  forall es s, P s -> P (Flag.run s es).
Proof.
  intros Hstep es. unfold Flag.run.
  induction es as [|e es IH]; intros s Hs; cbn [fold_left]; auto.
Qed.

Lemma tick_geometries now s : geometries (Flag.tick now s) = geometries s.
Proof.
  unfold Flag.tick.
  destruct (tween s) as [|t0|t0]; [reflexivity| |];
    destruct (Rle_dec _ _); reflexivity.
Qed.

Lemma tick_rippled now s : rippled (Flag.tick now s) = rippled s.
Proof.
  unfold Flag.tick.
  destruct (tween s) as [|t0|t0]; [reflexivity| |];
    destruct (Rle_dec _ _); reflexivity.
Qed.

Lemma onClick_geometries s : geometries (Flag.onClick s) = geometries s.
Proof. unfold Flag.onClick. now destruct (Rlt_dec _ _). Qed.

Lemma onPointerOver_geometries s :
  geometries (Flag.onPointerOver s) = geometries s.
Proof. unfold Flag.onPointerOver. now destruct (Rlt_dec _ _). Qed.

(** Only the frame callback writes geometries, and what it leaves in
    one is the geometry itself or one pass over it. *)
Lemma step_geometries s e r :
  geometries (Flag.step s e) r = geometries s r
  \/ exists time h,
       geometries (Flag.step s e) r
         = RippleField.rippleGeometry time h (geometries s r).
Proof.
  destruct e as [now|elapsed| | |]; cbn [Flag.step].
  - left. now rewrite tick_geometries.
  - destruct (useFrame_cases elapsed s) as [->|[_ ->]]; [now left|].
    rewrite rippleAll_geometries. case_decide; [right; eauto|now left].
  - left. now rewrite onClick_geometries.
  - left. now rewrite onPointerOver_geometries.
  - now left.
Qed.

(** Whatever the host does, a geometry is as it was at the start or
    one pass away from it: passes never pile up. *)
Lemma run_geometries s es r :
  geometries (Flag.run s es) r = geometries s r
  \/ exists time h,
       geometries (Flag.run s es) r
         = RippleField.rippleGeometry time h (geometries s r).
Proof.
  apply (run_invariant
           (fun s' => geometries s' r = geometries s r
                      \/ exists time h,
                           geometries s' r
                             = RippleField.rippleGeometry time h
                                 (geometries s r))); [|now left].
  intros s' e [E|(time & h & E)];
    destruct (step_geometries s' e r) as [E'|(time' & h' & E')];
    rewrite E'; rewrite E.
  - now left.
  - right; eauto.
  - right; eauto.
  - right. exists time', h'. apply rippleGeometry_absorb.
Qed.

Lemma run_original s es r :
  originalPositions (geometries (Flag.run s es) r)
    = originalPositions (geometries s r).
Proof.
  destruct (run_geometries s es r) as [->|(time & h & ->)]; [reflexivity|].
  apply rippleGeometry_original.
Qed.

End FlagRuns.

(** C10. The frame pass is idempotent for a fixed elapsed time: any
    number of passes at the same [t] leaves the buffers that one pass
    leaves; a pass after a pass at another time leaves what it alone
    would leave, so displacement does not accumulate, and this stays so
    along any run of the component; the cache, a copy of the positions
    made at setup, is never written; and the x cell of every cached
    vertex of a target is rewritten to its rest value. *)
Theorem C10_frame_pass_idempotent :
  forall (s : FlagState) (t : R) (r : Ref),
    (forall n : nat,
        geometries (Nat.iter (S n) (Flag.useFrame t) s) r
          = geometries (Flag.useFrame t s) r)
    /\ (forall t' : R,
          geometries (Flag.useFrame t (Flag.useFrame t' s)) r
            = geometries (Flag.useFrame t s) r)
    /\ (forall (L : Library) (es : list Flag.Event),
          originalPositions (geometries (Flag.run s es) r)
            = originalPositions (geometries s r)
          /\ (geometries (Flag.run s es) r = geometries s r
              \/ exists time h,
                   geometries (Flag.run s es) r
                     = RippleField.rippleGeometry time h (geometries s r)))
    /\ (forall g : BufferGeometry,
          originalPositions (Flag.cacheGeometry g) = Some (position g))
    /\ (forall (p q m : Mesh) (original : list R) (i : nat) (x y z : R),
          0 < waveStrength s ->
          primary (flagRef s) = Some p -> secondary (flagRef s) = Some q ->
          m ∈ Flag.targetMeshes (flagRef s) ->
          originalPositions (geometries s (geometry m)) = Some original ->
          length original = length (position (geometries s (geometry m))) ->
          RippleField.vertex original i = Some (x, y, z) ->
          position (geometries (Flag.useFrame t s) (geometry m)) !! (i * 3)%nat
            = Some x).
Proof.
  intros s t r. repeat split.
  - intros n. apply useFrame_iter.
  - intros t'. apply useFrame_absorb.
  - apply run_original.
  - apply run_geometries.
  - intros p q m original i x y z Hpos Hp Hq Hm Ho Hlen Hv.
    destruct (useFrame_vertex s t p q m original i x y z) as [E _]; auto.
    unfold RippleField.vertex in E.
    destruct (position (geometries (Flag.useFrame t s) (geometry m))
                !! (i * 3)%nat) as [x'|]; [|discriminate].
    destruct (_ !! (i * 3 + 1)%nat); [|discriminate].
    destruct (_ !! (i * 3 + 2)%nat); [|discriminate].
    rewrite <- wave_displace in E. congruence.
Qed.

Lemma C10_frame_pass_idempotent_witness :
  position (geometries (Flag.useFrame 3 Examples.waving) 2%nat) !! (0 * 3)%nat
    = Some (-2).
Proof.
  apply (proj2 (proj2 (proj2 (proj2
           (C10_frame_pass_idempotent Examples.waving 3 0%nat))))
         Examples.horn Examples.plane Examples.pole [-2; 1; 3] 0%nat (-2) 1 3).
  - cbn. lra.
  - reflexivity.
  - reflexivity.
  - cbn. apply list_elem_of_further, list_elem_of_further, list_elem_of_here.
  - reflexivity.
  - reflexivity.
  - reflexivity.
Defined.


(** ** The classifier's ranking *)

Section Ranking.
Import Classifier.
Variable h : Geometries.

#[local] Abbreviation before := (Classifier.before h).

Lemma comparator_before a b : (comparator h a b <=? 0)%Z = true <-> before a b.
Proof. unfold comparator, before. rewrite Z.leb_le. lia. Qed.

Lemma insertBy_perm x l : Permutation (insertBy (comparator h) x l) (x :: l).
Proof.
  induction l as [|y l IH]; cbn; [reflexivity|].
  destruct (comparator h x y <=? 0)%Z; [reflexivity|].
  rewrite IH. apply perm_swap.
Qed.

Lemma sortBy_perm l : Permutation (sortBy (comparator h) l) l.
Proof.
  induction l as [|x l IH]; cbn; [reflexivity|].
  now rewrite insertBy_perm, IH.
Qed.

Lemma insertBy_sorted x l :
  StronglySorted before l -> StronglySorted before (insertBy (comparator h) x l).
Proof.
  induction l as [|y l IH]; intros Hs; cbn.
  - repeat constructor.
  - apply StronglySorted_inv in Hs as [Hs Hy].
    destruct (comparator h x y <=? 0)%Z eqn:E.
    + apply comparator_before in E.
      constructor; [now constructor|].
      constructor; [exact E|].
      revert Hy. apply Forall_impl. intros a Ha. unfold before in *. lia.
    + assert (before y x) as Hyx.
      { unfold before. unfold comparator in E. apply Z.leb_gt in E. lia. }
      constructor; [now apply IH|].
      eapply Permutation_Forall; [symmetry; apply insertBy_perm|].
      now constructor.
Qed.

Lemma sortBy_sorted l : StronglySorted before (sortBy (comparator h) l).
Proof.
  induction l as [|x l IH]; cbn; [constructor|now apply insertBy_sorted].
Qed.

(** Meshes of equal vertex count keep their order. *)
Lemma insertBy_stable k x l :
  filter (fun m => vertexCount h m = k) (insertBy (comparator h) x l)
  = filter (fun m => vertexCount h m = k) (x :: l).
Proof.
  induction l as [|y l IH]; cbn [insertBy]; [reflexivity|].
  destruct (comparator h x y <=? 0)%Z eqn:E; [reflexivity|].
  assert (vertexCount h x < vertexCount h y)%nat as Hlt.
  { unfold comparator in E. apply Z.leb_gt in E. lia. }
  rewrite (filter_cons _ y), IH, !filter_cons.
  repeat case_decide; try reflexivity; lia.
Qed.

Lemma sortBy_stable k l :
  filter (fun m => vertexCount h m = k) (sortBy (comparator h) l)
  = filter (fun m => vertexCount h m = k) l.
Proof.
  induction l as [|x l IH]; cbn [sortBy foldr]; [reflexivity|].
  change (foldr (insertBy (comparator h)) [] l) with (sortBy (comparator h) l).
  rewrite insertBy_stable, !filter_cons, IH. reflexivity.
Qed.

Lemma head_is_largest a l x :
  StronglySorted before (a :: l) -> x ∈ a :: l ->
  (vertexCount h x <= vertexCount h a)%nat.
Proof.
  intros [_ Ha]%StronglySorted_inv [->|Hx]%elem_of_cons; [lia|].
  rewrite Forall_forall in Ha. apply Ha. now apply list_elem_of_In.
Qed.

(** A list ordered by vertex count in which equal counts keep their
    order is determined by its sublists of equal count: no stable sort
    can return anything else. *)
Lemma stable_sorted_unique l1 l2 :
  StronglySorted before l1 -> StronglySorted before l2 ->
  (forall k, filter (fun m => vertexCount h m = k) l1
             = filter (fun m => vertexCount h m = k) l2) ->
  l1 = l2.
Proof.
  induction l1 as [|a l1 IH] in l2 |- *; intros S1 S2 Hf.
  - destruct l2 as [|b l2]; [reflexivity|].
    specialize (Hf (vertexCount h b)).
    rewrite filter_nil, filter_cons_True in Hf by reflexivity. discriminate.
  - destruct l2 as [|b l2].
    { specialize (Hf (vertexCount h a)).
      rewrite filter_nil, filter_cons_True in Hf by reflexivity. discriminate. }
    assert (vertexCount h a = vertexCount h b) as Hab.
    { apply Nat.le_antisymm.
      - apply (head_is_largest b l2 a S2).
        pose proof (Hf (vertexCount h a)) as Hfa.
        rewrite filter_cons_True in Hfa by reflexivity.
        assert (a ∈ filter (fun m => vertexCount h m = vertexCount h a) (b :: l2))
          as Hin by (rewrite <- Hfa; apply list_elem_of_here).
        now apply list_elem_of_filter in Hin as [_ Hin].
      - apply (head_is_largest a l1 b S1).
        pose proof (Hf (vertexCount h b)) as Hfb.
        rewrite (filter_cons_True _ b) in Hfb by reflexivity.
        assert (b ∈ filter (fun m => vertexCount h m = vertexCount h b) (a :: l1))
          as Hin by (rewrite Hfb; apply list_elem_of_here).
        now apply list_elem_of_filter in Hin as [_ Hin]. }
    pose proof (Hf (vertexCount h a)) as Hfa.
    rewrite filter_cons_True in Hfa by reflexivity.
    rewrite (filter_cons_True _ b) in Hfa by (now symmetry).
    injection Hfa as <- Hfa.
    f_equal. apply IH.
    + now apply StronglySorted_inv in S1.
    + now apply StronglySorted_inv in S2.
    + intros k. specialize (Hf k). rewrite !filter_cons in Hf.
      destruct (decide (vertexCount h a = k)) as [<-|Hne]; [exact Hfa|].
      exact Hf.
Qed.

Lemma targetMeshes_select ranked :
  Flag.targetMeshes (Flag.select ranked) = take 5 ranked.
Proof.
  destruct ranked as [|a [|b [|c [|d [|e l]]]]]; reflexivity.
Qed.

End Ranking.

(** C6. For a group with at least two meshes the classifier's ranking
    is the meshes of the group ordered by vertex count, descending,
    meshes of equal count in their input order; it is the only list
    with these properties, so the result does not depend on how the
    engine sorts; the selected targets are its first five elements (its
    elements at ranks 1 to 5, as far as they exist), between two and
    five of them, the first two always present. *)
Theorem C6_classifier_selects_top_ranked :
  forall (h : Geometries) (nodes : list Object3D),
    (2 <= length (Classifier.collectMeshes nodes))%nat ->
    let meshes := Classifier.collectMeshes nodes in
    let ranked := Classifier.rank h nodes in
    let byCount := fun a b : Mesh =>
      (count (h (geometry b)) <= count (h (geometry a)))%nat in
    StronglySorted byCount ranked
    /\ Permutation ranked meshes
    /\ (forall k : nat,
          filter (fun m => Classifier.vertexCount h m = k) ranked
          = filter (fun m => Classifier.vertexCount h m = k) meshes)
    /\ (forall l : list Mesh,
          StronglySorted byCount l ->
          (forall k : nat,
              filter (fun m => Classifier.vertexCount h m = k) l
              = filter (fun m => Classifier.vertexCount h m = k) meshes) ->
          l = ranked)
    /\ Flag.slots (Flag.select ranked)
       = [ranked !! 0%nat; ranked !! 1%nat; ranked !! 2%nat;
          ranked !! 3%nat; ranked !! 4%nat]
    /\ Flag.targetMeshes (Flag.select ranked) = take 5 ranked
    /\ (2 <= length (Flag.targetMeshes (Flag.select ranked)) <= 5)%nat
    /\ is_Some (primary (Flag.select ranked))
    /\ is_Some (secondary (Flag.select ranked)).
Proof.
  intros h nodes Hlen meshes ranked byCount.
  assert (Hperm : Permutation ranked meshes) by apply sortBy_perm.
  assert (Hl : length ranked = length meshes) by now apply Permutation_length.
  split; [apply sortBy_sorted|].
  split; [exact Hperm|].
  split; [intros k; apply sortBy_stable|].
  split.
  { intros l Hs Hf.
    apply (stable_sorted_unique h); [exact Hs|apply sortBy_sorted|].
    intros k. rewrite Hf. symmetry. apply sortBy_stable. }
  split; [reflexivity|].
  split; [apply targetMeshes_select|].
  rewrite targetMeshes_select, length_take.
  fold meshes in Hlen.
  split; [lia|].
  split; apply lookup_lt_is_Some; lia.
Qed.

Lemma C6_classifier_selects_top_ranked_witness :
  Classifier.rank Examples.store Examples.fiveMeshes
    = [Examples.plane; Examples.horn; Examples.ring; Examples.pole;
       Examples.knob]
  /\ Flag.targetMeshes
       (Flag.select (Classifier.rank Examples.store Examples.fiveMeshes))
     = take 5 (Classifier.rank Examples.store Examples.fiveMeshes).
Proof.
  split; [reflexivity|].
  apply (C6_classifier_selects_top_ranked Examples.store Examples.fiveMeshes).
  cbn. lia.
Defined.


(** ** Setup of the flag component *)

Section FlagSetup.

Lemma cacheGeometry_idem g :
  Flag.cacheGeometry (Flag.cacheGeometry g) = Flag.cacheGeometry g.
Proof. reflexivity. Qed.

(** With every slot filled the caching loop runs to its end, and leaves
    each target's geometry with its normals computed and its positions
    copied into the cache. *)
Lemma cacheEach_filled (ms : list Mesh) (h : Geometries) :
  fst (Flag.cacheEach (Some <$> ms) h) = Returned
  /\ forall r : Ref,
       snd (Flag.cacheEach (Some <$> ms) h) r
       = if decide (r ∈ geometry <$> ms) then Flag.cacheGeometry (h r) else h r.
Proof.
  induction ms as [|m ms IH] in h |- *; cbn [fmap list_fmap Flag.cacheEach].
  - split; [reflexivity|]. intros r.
    rewrite decide_False; [reflexivity|apply not_elem_of_nil].
  - destruct (IH (<[geometry m := Flag.cacheGeometry (h (geometry m))]> h))
      as [-> Hg].
    split; [reflexivity|]. intros r. rewrite Hg.
    unfold insert, fn_insert.
    destruct (decide (geometry m = r)) as [->|Hne].
    + rewrite (decide_True (P := (_ ∈ _ :: _))) by apply list_elem_of_here.
      now case_decide.
    + case_decide as Hin.
      * rewrite decide_True; [reflexivity|now apply list_elem_of_further].
      * rewrite decide_False; [reflexivity|].
        intros [?|?]%elem_of_cons; congruence.
Qed.

(** An empty slot stops the loop with a TypeError. *)
Lemma cacheEach_empty_slot (ms : list Mesh) (rest : list (option Mesh))
    (h : Geometries) :
  fst (Flag.cacheEach ((Some <$> ms) ++ None :: rest) h) = Threw.
Proof.
  induction ms as [|m ms IH] in h |- *; cbn; [reflexivity|apply IH].
Qed.

(** With five meshes or more, setup runs to its end: the five targets
    are cached before anything is displaced, the references are stored
    and the rotation starts. *)
Lemma setup_completes_with_five_meshes nodes h now :
  (5 <= length (Classifier.collectMeshes nodes))%nat ->
  let result :=
    Flag.mount {| rootMounted := true; flagLookup := FlagGroup nodes |} h now in
  fst result = Returned
  /\ flagRef (snd result) = Flag.select (Classifier.rank h nodes)
  /\ tween (snd result) = Rotating now
  /\ waveStrength (snd result) = 0
  /\ rippled (snd result) = []
  /\ forall m, m ∈ Flag.targetMeshes (flagRef (snd result)) ->
       normalsComputed (geometries (snd result) (geometry m)) = true
       /\ originalPositions (geometries (snd result) (geometry m))
          = Some (position (h (geometry m)))
       /\ position (geometries (snd result) (geometry m))
          = position (h (geometry m)).
Proof.
  intros Hlen.
  pose proof (Permutation_length (sortBy_perm h (Classifier.collectMeshes nodes)))
    as Hl.
  unfold Flag.mount, Flag.setup. cbn [rootMounted flagLookup negb Flag.initial geometries].
  unfold Classifier.rank.
  destruct (Classifier.sortBy (Classifier.comparator h)
              (Classifier.collectMeshes nodes))
    as [|a [|b [|c [|d [|e l]]]]] eqn:E; cbn in Hl; try lia.
  change (Flag.slots (Flag.select (a :: b :: c :: d :: e :: l)))
    with [Some a; Some b; Some c; Some d; Some e].
  change (primary (Flag.select (a :: b :: c :: d :: e :: l))) with (Some a).
  change (secondary (Flag.select (a :: b :: c :: d :: e :: l))) with (Some b).
  cbn iota.
  destruct (cacheEach_filled [a; b; c; d; e] h) as [Hc Hg].
  cbn [fmap list_fmap] in Hc, Hg.
  destruct (Flag.cacheEach [Some a; Some b; Some c; Some d; Some e] h)
    as [c0 h'] eqn:Ec.
  cbn [fst snd] in Hc, Hg. subst c0.
  cbn [fst snd flagRef tween waveStrength rippled geometries].
  repeat (split; [reflexivity|]).
  intros m Hm. rewrite Hg.
  change (Flag.targetMeshes _) with [a; b; c; d; e] in Hm.
  assert (geometry m ∈ geometry <$> [a; b; c; d; e]) as Hin
    by (apply list_elem_of_fmap; eauto).
  rewrite decide_True by exact Hin. repeat split.
Qed.

End FlagSetup.

(** C2, on the source.  The claim does not hold of it: when the group
    has two, three or four meshes the caching loop meets an empty slot
    and the effect ends with a TypeError, before the references are
    stored and before the rotation is started. *)
Theorem C2_setup_throws_when_an_optional_mesh_is_absent :
  forall (nodes : list Object3D) (h : Geometries) (now : R),
    (2 <= length (Classifier.collectMeshes nodes) < 5)%nat ->
    let result :=
      Flag.mount {| rootMounted := true; flagLookup := FlagGroup nodes |} h now in
    fst result = Threw
    /\ flagRef (snd result) = noTargets
    /\ tween (snd result) = NoTween
    /\ waveStrength (snd result) = 0
    /\ warnings (snd result) = [].
Proof.
  intros nodes h now Hlen.
  pose proof (Permutation_length (sortBy_perm h (Classifier.collectMeshes nodes)))
    as Hl.
  unfold Flag.mount, Flag.setup.
  cbn [rootMounted flagLookup negb Flag.initial geometries].
  unfold Classifier.rank.
  destruct (Classifier.sortBy (Classifier.comparator h)
              (Classifier.collectMeshes nodes))
    as [|a [|b [|c [|d [|e l]]]]] eqn:E; cbn in Hl; try lia.
  - change (Flag.slots (Flag.select [a; b])) with [Some a; Some b; None; None; None].
    change (primary (Flag.select [a; b])) with (Some a).
    change (secondary (Flag.select [a; b])) with (Some b).
    cbn iota.
    pose proof (cacheEach_empty_slot [a; b] [None; None] h) as Hc.
    cbn [fmap list_fmap app] in Hc.
    destruct (Flag.cacheEach _ h) as [c0 h']. cbn [fst] in Hc. subst c0.
    repeat split.
  - change (Flag.slots (Flag.select [a; b; c])) with [Some a; Some b; Some c; None; None].
    change (primary (Flag.select [a; b; c])) with (Some a).
    change (secondary (Flag.select [a; b; c])) with (Some b).
    cbn iota.
    pose proof (cacheEach_empty_slot [a; b; c] [None] h) as Hc.
    cbn [fmap list_fmap app] in Hc.
    destruct (Flag.cacheEach _ h) as [c0 h']. cbn [fst] in Hc. subst c0.
    repeat split.
  - change (Flag.slots (Flag.select [a; b; c; d])) with [Some a; Some b; Some c; Some d; None].
    change (primary (Flag.select [a; b; c; d])) with (Some a).
    change (secondary (Flag.select [a; b; c; d])) with (Some b).
    cbn iota.
    pose proof (cacheEach_empty_slot [a; b; c; d] [] h) as Hc.
    cbn [fmap list_fmap app] in Hc.
    destruct (Flag.cacheEach _ h) as [c0 h']. cbn [fst] in Hc. subst c0.
    repeat split.
Qed.

Lemma C2_setup_throws_when_an_optional_mesh_is_absent_witness :
  fst (Flag.mount (Examples.sceneOf Examples.twoMeshes) Examples.store 0) = Threw
  /\ flagRef (snd (Flag.mount (Examples.sceneOf Examples.twoMeshes)
                     Examples.store 0)) = noTargets
  /\ tween (snd (Flag.mount (Examples.sceneOf Examples.twoMeshes)
                   Examples.store 0)) = NoTween
  /\ waveStrength (snd (Flag.mount (Examples.sceneOf Examples.twoMeshes)
                          Examples.store 0)) = 0
  /\ warnings (snd (Flag.mount (Examples.sceneOf Examples.twoMeshes)
                      Examples.store 0)) = [].
Proof.
  apply (C2_setup_throws_when_an_optional_mesh_is_absent
           Examples.twoMeshes Examples.store 0).
  cbn. lia.
Defined.


(** ** The flag component when setup has not started the rotation *)

Section FlagIdle.
Context `{Library}.

Lemma idle_step h s e : Flag.idle h s -> Flag.idle h (Flag.step s e).
Proof.
  intros (Ht & Hw & Hr & Hg & Hc).
  destruct e as [now|elapsed| | |]; cbn [Flag.step].
  - unfold Flag.tick. rewrite Ht. repeat split; assumption.
  - rewrite useFrame_idle by (left; lra). repeat split; assumption.
  - unfold Flag.onClick. destruct (Rlt_dec _ _); repeat split; assumption.
  - unfold Flag.onPointerOver. destruct (Rlt_dec _ _); repeat split; assumption.
  - repeat split; assumption.
Qed.

Lemma idle_run h s es : Flag.idle h s -> Flag.idle h (Flag.run s es).
Proof. apply run_invariant. intros s' e. apply idle_step. Qed.

End FlagIdle.



(** ** Clicks *)

(** The click handler looks at the amplitude only. *)
Lemma onClick_navigates s :
  waveStrength s <= 0 -> navigated (Flag.onClick s) = true.
Proof.
  intros Hle. unfold Flag.onClick.
  destruct (Rlt_dec 0 (waveStrength s)); [lra|reflexivity].
Qed.

Lemma onClick_isClickable s : isClickable (Flag.onClick s) = isClickable s.
Proof. unfold Flag.onClick. now destruct (Rlt_dec _ _). Qed.

(** While a tween of the flag is running the interactive flag is false;
    the tick that completes the decay sets it. *)
Lemma interactive_flag_follows_decay `{Library} s es :
  (tween s <> NoTween -> isClickable s = false) ->
  (tween (Flag.run s es) <> NoTween -> isClickable (Flag.run s es) = false)
  /\ forall t0 now,
       tween (Flag.run s es) = Decaying t0 -> t0 + 5 <= now ->
       isClickable (Flag.tick now (Flag.run s es)) = true
       /\ waveStrength (Flag.tick now (Flag.run s es)) = 0.
Proof.
  intros Hs. split.
  - revert Hs. apply (run_invariant
                        (fun s => tween s <> NoTween -> isClickable s = false)).
    intros s' e J. destruct e as [now|elapsed| | |]; cbn [Flag.step].
    + unfold Flag.tick. destruct (tween s') as [|t0|t0] eqn:E.
      * rewrite E. congruence.
      * destruct (Rle_dec _ _); cbn; intros _; apply J; discriminate.
      * destruct (Rle_dec _ _); cbn; [congruence|].
        intros _; apply J; discriminate.
    + destruct (useFrame_cases elapsed s') as [->|[_ ->]]; [exact J|].
      destruct (rippleAll_simple elapsed
                  (RippleField.baseHeight * waveStrength s')
                  (Flag.targetMeshes (flagRef s')) s')
        as (_ & _ & -> & -> & _).
      exact J.
    + unfold Flag.onClick. destruct (Rlt_dec _ _); exact J.
    + unfold Flag.onPointerOver. destruct (Rlt_dec _ _); exact J.
    + exact J.
  - intros t0 now E Hnow. unfold Flag.tick. rewrite E.
    destruct (Rle_dec (t0 + 5) now); [split; reflexivity|lra].
Qed.

(** C3, on the source.  The claim does not hold of it: on a scene of
    five meshes, a click right after mounting, while the rotation is
    running and the interactive flag is false, navigates; so does a
    click after one time-unit of the rotation. *)
Theorem C3_click_navigates_before_interactive :
  forall (L : Library),
    fst (Flag.mount (Examples.sceneOf Examples.fiveMeshes) Examples.store 0)
      = Returned
    /\ tween (snd (Flag.mount (Examples.sceneOf Examples.fiveMeshes)
                     Examples.store 0)) = Rotating 0
    /\ isClickable (Flag.run
                      (snd (Flag.mount (Examples.sceneOf Examples.fiveMeshes)
                              Examples.store 0))
                      [Flag.Click]) = false
    /\ navigated (Flag.run
                    (snd (Flag.mount (Examples.sceneOf Examples.fiveMeshes)
                            Examples.store 0))
                    [Flag.Click]) = true
    /\ tween (Flag.run
                (snd (Flag.mount (Examples.sceneOf Examples.fiveMeshes)
                        Examples.store 0))
                [Flag.Tick 1]) = Rotating 0
    /\ isClickable (Flag.run
                      (snd (Flag.mount (Examples.sceneOf Examples.fiveMeshes)
                              Examples.store 0))
                      [Flag.Tick 1; Flag.Click]) = false
    /\ navigated (Flag.run
                    (snd (Flag.mount (Examples.sceneOf Examples.fiveMeshes)
                            Examples.store 0))
                    [Flag.Tick 1; Flag.Click]) = true.
Proof.
  intros L.
  destruct (setup_completes_with_five_meshes Examples.fiveMeshes Examples.store 0)
    as (Hc & _ & Ht & Hw & _); [cbn; lia|].
  change (Flag.mount {| rootMounted := true;
                        flagLookup := FlagGroup Examples.fiveMeshes |}
            Examples.store 0)
    with (Flag.mount (Examples.sceneOf Examples.fiveMeshes) Examples.store 0)
    in *.
  assert (Hi : isClickable
                 (snd (Flag.mount (Examples.sceneOf Examples.fiveMeshes)
                         Examples.store 0)) = false) by reflexivity.
  destruct (Flag.mount (Examples.sceneOf Examples.fiveMeshes) Examples.store 0)
    as [c s0] eqn:Em.
  cbn [fst snd] in *.
  split; [exact Hc|]. split; [exact Ht|].
  unfold Flag.run. cbn [fold_left Flag.step].
  split; [now rewrite onClick_isClickable|].
  split; [apply onClick_navigates; lra|].
  assert (Etick : tween (Flag.tick 1 s0) = Rotating 0
                  /\ waveStrength (Flag.tick 1 s0) = 0
                  /\ isClickable (Flag.tick 1 s0) = isClickable s0).
  { unfold Flag.tick. rewrite Ht.
    destruct (Rle_dec (0 + 4) 1) as [Hle|_]; [lra|]. cbn. auto. }
  destruct Etick as (Et & Ew & Ec).
  split; [exact Et|].
  split; [now rewrite onClick_isClickable, Ec|].
  apply onClick_navigates. lra.
Qed.


(** ** Setup of the mascot component *)

Section RhinoSetup.

Lemma collectBones_names sk nodes k r :
  Rhino.collectBones sk nodes !! k = Some r -> bone_name (sk r) = k.
Proof.
  unfold Rhino.collectBones.
  assert (G : forall (m : gmap string Ref),
             (forall k r, m !! k = Some r -> bone_name (sk r) = k) ->
             forall k r,
               fold_left
                 (fun (found : gmap string Ref) node =>
                    match node with
                    | BoneNode b => <[bone_name (sk b) := b]> found
                    | PlainNode => found
                    end) nodes m !! k = Some r ->
               bone_name (sk r) = k).
  { induction nodes as [|[b|] nodes IH]; intros m Hm k' r'; cbn [fold_left].
    - apply Hm.
    - apply IH. intros k2 r2.
      destruct (decide (bone_name (sk b) = k2)) as [<-|Hne].
      + rewrite lookup_insert_eq. now intros [= <-].
      + rewrite lookup_insert_ne by exact Hne. apply Hm.
    - apply IH, Hm. }
  apply G. intros k' r'. now rewrite lookup_empty.
Qed.

(** Joints found under different names are different joints. *)
Lemma collectBones_distinct sk nodes k1 k2 r1 r2 :
  k1 <> k2 ->
  Rhino.collectBones sk nodes !! k1 = Some r1 ->
  Rhino.collectBones sk nodes !! k2 = Some r2 ->
  r1 <> r2.
Proof.
  intros Hk H1%collectBones_names H2%collectBones_names ->. congruence.
Qed.

Lemma mount_with_legs scene sk now fl bl fr br :
  groupMounted scene = true ->
  Rhino.collectBones sk (rhinoNodes scene) !! "Front_leg_1_L"%string = Some fl ->
  Rhino.collectBones sk (rhinoNodes scene) !! "Back_leg_1_L"%string = Some bl ->
  Rhino.collectBones sk (rhinoNodes scene) !! "Front_leg_1_R"%string = Some fr ->
  Rhino.collectBones sk (rhinoNodes scene) !! "Back_leg_1_R"%string = Some br ->
  Rhino.mount scene sk now =
  Rhino.walking sk (Rhino.collectBones sk (rhinoNodes scene)) fl bl fr br
    (Rhino.collectBones sk (rhinoNodes scene) !! "Neck_mover_bone"%string) now.
Proof.
  intros Hm Hfl Hbl Hfr Hbr.
  unfold Rhino.mount, Rhino.setup. rewrite Hm.
  cbn [negb skeleton Rhino.initial]. cbv zeta.
  rewrite Hfl, Hbl, Hfr, Hbr.
  destruct (Rhino.collectBones sk (rhinoNodes scene) !! "Neck_mover_bone"%string);
    reflexivity.
Qed.

Lemma mount_without_legs scene sk now :
  groupMounted scene = true ->
  Rhino.collectBones sk (rhinoNodes scene) !! "Front_leg_1_L"%string = None
  \/ Rhino.collectBones sk (rhinoNodes scene) !! "Back_leg_1_L"%string = None
  \/ Rhino.collectBones sk (rhinoNodes scene) !! "Front_leg_1_R"%string = None
  \/ Rhino.collectBones sk (rhinoNodes scene) !! "Back_leg_1_R"%string = None ->
  timelines (Rhino.mount scene sk now) = None
  /\ skeleton (Rhino.mount scene sk now) = sk
  /\ fired (Rhino.mount scene sk now) = []
  /\ positionX (Rhino.mount scene sk now) = positionX (Rhino.initial sk)
  /\ MissingLegBones ∈ rhinoWarnings (Rhino.mount scene sk now).
Proof.
  intros Hm Hmiss.
  unfold Rhino.mount, Rhino.setup. rewrite Hm.
  cbn [negb skeleton Rhino.initial]. cbv zeta.
  set (found := Rhino.collectBones sk (rhinoNodes scene)) in *.
  assert (W : forall s : RhinoState,
             MissingLegBones ∈ rhinoWarnings (Rhino.warn MissingLegBones s)).
  { intros s. cbn. apply elem_of_app. right. apply list_elem_of_here. }
  destruct (found !! "Neck_mover_bone"%string);
    destruct (found !! "Front_leg_1_L"%string);
    destruct (found !! "Back_leg_1_L"%string);
    destruct (found !! "Front_leg_1_R"%string);
    destruct (found !! "Back_leg_1_R"%string);
    try (repeat split; (reflexivity || apply W)).
  all: exfalso; destruct Hmiss as [?|[?|[?|?]]]; discriminate.
Qed.

Lemma run_without_timelines `{Library} s ticks :
  timelines s = None -> Rhino.run s ticks = s.
Proof.
  intros Hn. unfold Rhino.run.
  induction ticks as [|t ticks IH]; cbn [fold_left]; [reflexivity|].
  unfold Rhino.tick at 2. rewrite Hn. exact IH.
Qed.

(** After the effect's cleanup no tick changes anything. *)
Lemma cleanup_stops_the_timelines `{Library} s ticks :
  Rhino.run (Rhino.cleanup s) ticks = Rhino.cleanup s.
Proof. now apply run_without_timelines. Qed.

End RhinoSetup.

(** ** The walk, stage by stage *)

Section Walk.
Context `{Library}.
Context (sk : Skeleton) (found : gmap string Ref) (fl bl fr br : Ref)
        (neck : option Ref) (now : R).

#[local] Abbreviation waiting := (Rhino.waiting sk found fl bl fr br neck now).
#[local] Abbreviation striding := (Rhino.striding sk found fl bl fr br neck now).
#[local] Abbreviation turning := (Rhino.turning sk found fl bl fr br neck now).
#[local] Abbreviation settled := (Rhino.settled sk found fl bl fr br neck now).
#[local] Abbreviation isLeg := (Rhino.isLeg fl bl fr br).

Ltac split_ticks :=
  repeat match goal with
         | |- context [Rle_dec ?a ?b] =>
             destruct (Rle_dec a b); try (exfalso; lra)
         end.

Ltac split_cycle :=
  repeat match goal with
         | |- context [Rlt_dec ?a ?b] => destruct (Rlt_dec a b)
         end.

Ltac expose_tick :=
  unfold Rhino.tick;
  cbn [timelines legTl paused bodyTl created pending];
  unfold Rhino.placed, Rhino.walkSteps;
  cbn [app Rhino.place Rhino.duration drop Rhino.advance].

Ltac frame_joints :=
  let r := fresh "r" in
  intros r; intros; cbn; unfold Rhino.slerpInto;
  rewrite ?fn_lookup_insert_ne
    by (let E := fresh in
        intros E; subst;
        first [ congruence
              | match goal with
                | Hr : ~ Rhino.isLeg _ _ _ _ _ |- _ =>
                    apply Hr; unfold Rhino.isLeg; tauto
                end ]);
  first [ solve [auto]
        | match goal with
          | Hsk : forall r, _ -> _ -> _ = _ |- _ =>
              apply Hsk; [assumption|congruence]
          end ].

Ltac neck_done :=
  let n' := fresh "n" in
  first [ solve [intros n' [= <-]; cbn; unfold Rhino.slerpInto;
                 now rewrite fn_lookup_insert]
        | solve [intros n' [=]] ].

Ltac close_stage :=
  unfold Rhino.shaped; (split; [reflexivity|]); repeat split;
  first [ solve [cbn; lra] | assumption | neck_done | solve [frame_joints] ].

Lemma tick_waiting t s :
  waiting s ->
  (t - now < 5 -> waiting (Rhino.tick t s))
  /\ (5 <= t - now < 9 -> striding (Rhino.tick t s))
  /\ (9 <= t - now < 10.8 -> is_Some neck -> turning (Rhino.tick t s))
  /\ (9 <= t - now -> 10.8 <= t - now \/ neck = None ->
      settled (Rhino.tick t s)).
Proof.
  intros [lt Hs]. unfold Rhino.shaped in Hs. subst s. repeat split.
  - intros Ht. expose_tick.
    split_ticks; cbn; eexists; unfold Rhino.shaped; reflexivity.
  - intros Ht. expose_tick.
    split_ticks; cbn; do 5 eexists; close_stage.
  - intros Ht [n Hn]. expose_tick. rewrite Hn. cbn [Rhino.lookSteps].
    split_ticks; cbn; split_ticks; cbn; do 6 eexists; close_stage.
  - intros Ht Hend. expose_tick. split_ticks.
    destruct neck as [n|] eqn:Hn; cbn; split_ticks;
      try (destruct Hend; [lra|discriminate]);
      cbn; do 6 eexists; close_stage.
Qed.

Lemma tick_striding t s :
  striding s ->
  (t - now < 9 -> striding (Rhino.tick t s))
  /\ (9 <= t - now < 10.8 -> is_Some neck -> turning (Rhino.tick t s))
  /\ (9 <= t - now -> 10.8 <= t - now \/ neck = None ->
      settled (Rhino.tick t s)).
Proof.
  intros (sk' & x & lp & lt & t1 & Hs & Ht1 & Hsk).
  unfold Rhino.shaped in Hs. subst s. repeat split.
  - intros Ht. expose_tick. unfold Rhino.renderLoop, Rhino.legSteps.
    cbn [loopSteps Rhino.renderCycle].
    split_ticks; split_cycle; cbn; do 5 eexists; close_stage.
  - intros Ht [n Hn]. expose_tick. rewrite Hn.
    unfold Rhino.renderLoop, Rhino.legSteps.
    cbn [loopSteps Rhino.renderCycle Rhino.lookSteps].
    split_ticks; split_cycle; cbn; split_ticks; split_cycle; cbn;
      do 6 eexists; close_stage.
  - intros Ht Hend. expose_tick.
    unfold Rhino.renderLoop, Rhino.legSteps.
    cbn [loopSteps Rhino.renderCycle].
    destruct neck as [n|] eqn:Hn; cbn [Rhino.lookSteps];
      split_ticks; split_cycle; cbn; split_ticks; split_cycle; cbn;
      try (destruct Hend; [lra|discriminate]);
      do 6 eexists; close_stage.
Qed.

Lemma tick_turning t s :
  is_Some neck -> turning s ->
  (t - now < 10.8 -> turning (Rhino.tick t s))
  /\ (10.8 <= t - now -> settled (Rhino.tick t s))
  /\ (forall n, neck = Some n -> 9 <= t - now < 10.8 ->
        quaternion (skeleton (Rhino.tick t s) n)
        = slerpQuaternions (quaternion (sk n)) Rhino.lookAtViewerQuat
            (ease Power2Out ((t - now - 9) / 1.8))).
Proof.
  intros [n Hn] (sk' & x & lp & lt & t1 & t2 & Hs & Hx & Ht1 & Ht2 & Hsk).
  unfold Rhino.shaped in Hs. subst s.
  repeat split.
  - intros Ht. expose_tick. rewrite Hn. cbn [Rhino.lookSteps].
    cbn [app Rhino.place Rhino.duration drop Rhino.advance].
    split_ticks; cbn; do 6 eexists; close_stage.
  - intros Ht. expose_tick. rewrite Hn. cbn [Rhino.lookSteps].
    cbn [app Rhino.place Rhino.duration drop Rhino.advance].
    split_ticks; cbn; do 6 eexists; close_stage.
  - intros n' Hn' Ht. rewrite Hn in Hn'. injection Hn' as <-.
    expose_tick. rewrite Hn. cbn [Rhino.lookSteps].
    cbn [app Rhino.place Rhino.duration drop Rhino.advance].
    split_ticks; cbn. unfold Rhino.slerpInto. rewrite fn_lookup_insert.
    cbn. do 2 f_equal. lra.
Qed.

Lemma tick_settled t s : settled s -> settled (Rhino.tick t s).
Proof.
  intros (sk' & x & lp & lt & t1 & t2 & Hs & Hx & Ht1 & Ht2 & Hneck & Hsk).
  unfold Rhino.shaped in Hs. subst s.
  expose_tick. cbn. do 6 eexists. close_stage.
Qed.

Lemma reached_snoc ticks t p :
  Rhino.reached now (ticks ++ [t]) p
  <-> Rhino.reached now ticks p \/ p <= t - now.
Proof.
  unfold Rhino.reached. rewrite Exists_app, Exists_cons, Exists_nil. tauto.
Qed.

Lemma reached_mono ticks p q :
  p <= q -> Rhino.reached now ticks q -> Rhino.reached now ticks p.
Proof.
  intros Hpq. unfold Rhino.reached. apply Exists_impl. intros t Ht. lra.
Qed.

Lemma run_snoc s ticks t :
  Rhino.run s (ticks ++ [t]) = Rhino.tick t (Rhino.run s ticks).
Proof. unfold Rhino.run. now rewrite fold_left_app. Qed.

#[local] Abbreviation onSchedule :=
  (Rhino.onSchedule sk found fl bl fr br neck now).

Lemma onSchedule_step ticks t s :
  onSchedule ticks s -> onSchedule (ticks ++ [t]) (Rhino.tick t s).
Proof.
  unfold Rhino.onSchedule. rewrite !reached_snoc.
  pose proof (reached_mono ticks 5 9) as M59.
  pose proof (reached_mono ticks 9 10.8) as M9.
  pose proof (reached_mono ticks 5 10.8) as M5.
  assert (Hneck : is_Some neck \/ neck = None)
    by (destruct neck; [left; eauto|now right]).
  destruct (Rlt_le_dec (t - now) 5) as [T5|T5];
    destruct (Rlt_le_dec (t - now) 9) as [T9|T9];
    destruct (Rlt_le_dec (t - now) 10.8) as [T108|T108]; try lra;
    intros [(N5 & W)|[(R5 & N9 & K)|[(R9 & N108 & Sn & T)|(R9 & End & S)]]].
  all: try (pose proof (tick_waiting t s W) as (W1 & W2 & W3 & W4)).
  all: try (pose proof (tick_striding t s K) as (K1 & K2 & K3)).
  all: try (pose proof (tick_turning t s Sn T) as (T1 & T2 & _)).
  all: try (pose proof (tick_settled t s S) as S1).
  (* t - now < 5 *)
  - left. split; [intros [?|?]; [tauto|lra]|]. apply W1; lra.
  - right; left. split; [tauto|]. split; [intros [?|?]; [tauto|lra]|].
    apply K1; lra.
  - right; right; left. split; [tauto|].
    split; [intros [?|?]; [tauto|lra]|]. split; [exact Sn|]. apply T1; lra.
  - right; right; right. split; [tauto|]. split; [tauto|exact S1].
  (* 5 <= t - now < 9 *)
  - right; left. split; [right; lra|].
    split; [intros [?|?]; [apply N5, M59; [lra|assumption]|lra]|].
    apply W2; lra.
  - right; left. split; [tauto|]. split; [intros [?|?]; [tauto|lra]|].
    apply K1; lra.
  - right; right; left. split; [tauto|].
    split; [intros [?|?]; [tauto|lra]|]. split; [exact Sn|]. apply T1; lra.
  - right; right; right. split; [tauto|]. split; [tauto|exact S1].
  (* 9 <= t - now < 10.8 *)
  - destruct Hneck as [Hs|Hn].
    + right; right; left. split; [right; lra|].
      split; [intros [?|?]; [apply N5, M5; [lra|assumption]|lra]|].
      split; [exact Hs|]. apply W3; [lra|exact Hs].
    + right; right; right. split; [right; lra|]. split; [now right|].
      apply W4; [lra|now right].
  - destruct Hneck as [Hs|Hn].
    + right; right; left. split; [right; lra|].
      split; [intros [?|?]; [apply N9, M9; [lra|assumption]|lra]|].
      split; [exact Hs|]. apply K2; [lra|exact Hs].
    + right; right; right. split; [right; lra|]. split; [now right|].
      apply K3; [lra|now right].
  - right; right; left. split; [tauto|].
    split; [intros [?|?]; [tauto|lra]|]. split; [exact Sn|]. apply T1; lra.
  - right; right; right. split; [tauto|]. split; [tauto|exact S1].
  (* 10.8 <= t - now *)
  - right; right; right. split; [right; lra|]. split; [left; right; lra|].
    apply W4; [lra|left; lra].
  - right; right; right. split; [right; lra|]. split; [left; right; lra|].
    apply K3; [lra|left; lra].
  - right; right; right. split; [tauto|]. split; [left; right; lra|].
    apply T2; lra.
  - right; right; right. split; [tauto|]. split; [tauto|exact S1].
Qed.

Lemma onSchedule_run ticks :
  onSchedule ticks
    (Rhino.run (Rhino.walking sk found fl bl fr br neck now) ticks).
Proof.
  induction ticks as [|t ticks IH] using rev_ind.
  - left. split.
    + unfold Rhino.reached. now rewrite Exists_nil.
    + exists now. reflexivity.
  - rewrite run_snoc. now apply onSchedule_step.
Qed.

End Walk.

(** ** The mascot's sequence *)

Section Sequence.
Context `{Library}.
Context (sk : Skeleton) (found : gmap string Ref) (fl bl fr br : Ref)
        (neck : option Ref) (now : R).

#[local] Abbreviation start := (Rhino.walking sk found fl bl fr br neck now).

Lemma placed_positions :
  Rhino.placed sk neck =
  [(0, To Nothing 5 DefaultEase); (5, Call PlayLegs);
   (5, To (RootX (-15) (-9.5)) 4 Power2InOut); (9, Call PauseLegs)]
  ++ match neck with
     | Some n => [(9, To (NeckLookAt n (quaternion (sk n))) 1.8 Power2Out)]
     | None => []
     end.
Proof.
  unfold Rhino.placed, Rhino.walkSteps.
  destruct neck; cbn [app Rhino.place Rhino.duration Rhino.lookSteps];
    repeat (f_equal; try lra).
Qed.

Lemma before_the_walk ticks :
  ~ Rhino.reached now ticks 5 ->
  fired (Rhino.run start ticks) = []
  /\ Rhino.legsPlaying (Rhino.run start ticks) = false
  /\ positionX (Rhino.run start ticks) = -15
  /\ skeleton (Rhino.run start ticks) = sk.
Proof.
  intros N5.
  pose proof (reached_mono now ticks 5 9) as M59.
  destruct (onSchedule_run sk found fl bl fr br neck now ticks)
    as [(_ & lt & Hs)|[(R5 & _)|[(R9 & _)|(R9 & _)]]];
    [|tauto|exfalso; apply N5, M59; [lra|assumption]..].
  unfold Rhino.shaped in Hs. rewrite Hs.
  repeat split.
Qed.

Lemma during_the_walk ticks :
  Rhino.reached now ticks 5 -> ~ Rhino.reached now ticks 9 ->
  Rhino.legsPlaying (Rhino.run start ticks) = true
  /\ (exists t1, fired (Rhino.run start ticks) = [(PlayLegs, t1)]
                 /\ 5 <= t1 - now)
  /\ forall r, ~ Rhino.isLeg fl bl fr br r ->
       skeleton (Rhino.run start ticks) r = sk r.
Proof.
  intros R5 N9.
  destruct (onSchedule_run sk found fl bl fr br neck now ticks)
    as [(N5 & _)|[(_ & _ & K)|[(R9 & _)|(R9 & _)]]]; try tauto.
  destruct K as (sk' & x & lp & lt & t1 & Hs & Ht1 & Hsk).
  unfold Rhino.shaped in Hs. rewrite Hs.
  repeat split; eauto.
Qed.

Lemma after_the_walk ticks :
  Rhino.reached now ticks 9 ->
  Rhino.legsPlaying (Rhino.run start ticks) = false
  /\ positionX (Rhino.run start ticks) = -9.5
  /\ (exists t1 t2,
        fired (Rhino.run start ticks) = [(PauseLegs, t2); (PlayLegs, t1)]
        /\ 5 <= t1 - now /\ 9 <= t2 - now)
  /\ forall r, ~ Rhino.isLeg fl bl fr br r -> Some r <> neck ->
       skeleton (Rhino.run start ticks) r = sk r.
Proof.
  intros R9.
  pose proof (reached_mono now ticks 5 9) as M59.
  destruct (onSchedule_run sk found fl bl fr br neck now ticks)
    as [(N5 & _)|[(_ & N9 & _)|[(_ & _ & _ & T)|(_ & _ & S)]]];
    [exfalso; apply N5, M59; [lra|assumption]|tauto| |].
  - destruct T as (sk' & x & lp & lt & t1 & t2 & Hs & Hx & Ht1 & Ht2 & Hsk).
    unfold Rhino.shaped in Hs. rewrite Hs.
    repeat split; eauto.
  - destruct S as (sk' & x & lp & lt & t1 & t2 & Hs & Hx & Ht1 & Ht2 & _ & Hsk).
    unfold Rhino.shaped in Hs. rewrite Hs.
    repeat split; eauto.
Qed.

Lemma during_the_turn ticks t n :
  neck = Some n ->
  Rhino.reached now ticks 9 -> ~ Rhino.reached now ticks 10.8 ->
  9 <= t - now < 10.8 ->
  quaternion (skeleton (Rhino.tick t (Rhino.run start ticks)) n)
  = slerpQuaternions (quaternion (sk n)) Rhino.lookAtViewerQuat
      (ease Power2Out ((t - now - 9) / 1.8)).
Proof.
  intros Hn R9 N108 Ht.
  pose proof (reached_mono now ticks 5 9) as M59.
  destruct (onSchedule_run sk found fl bl fr br neck now ticks)
    as [(N5 & _)|[(_ & N9 & _)|[(_ & _ & Sn & T)|(_ & [?|Hnone] & _)]]];
    [exfalso; apply N5, M59; [lra|assumption]|tauto| |tauto|congruence].
  now apply (tick_turning sk found fl bl fr br neck now t _ Sn T).
Qed.

Lemma after_the_turn ticks n :
  neck = Some n ->
  Rhino.reached now ticks 10.8 ->
  quaternion (skeleton (Rhino.run start ticks) n)
  = slerpQuaternions (quaternion (sk n)) Rhino.lookAtViewerQuat 1
  /\ Rhino.bodyPending (Rhino.run start ticks) = [].
Proof.
  intros Hn R108.
  pose proof (reached_mono now ticks 5 10.8) as M5.
  pose proof (reached_mono now ticks 9 10.8) as M9.
  destruct (onSchedule_run sk found fl bl fr br neck now ticks)
    as [(N5 & _)|[(_ & N9 & _)|[(_ & N108 & _)|(_ & _ & S)]]];
    [exfalso; apply N5, M5; [lra|assumption]
    |exfalso; apply N9, M9; [lra|assumption]|tauto|].
  destruct S as (sk' & x & lp & lt & t1 & t2 & Hs & Hx & Ht1 & Ht2 & Hq & _).
  unfold Rhino.shaped in Hs. rewrite Hs.
  split; [now apply Hq|reflexivity].
Qed.

End Sequence.

(** The neck is none of the leg joints: the five names differ. *)
Lemma neck_is_no_leg sk nodes fl bl fr br n :
  Rhino.collectBones sk nodes !! "Front_leg_1_L"%string = Some fl ->
  Rhino.collectBones sk nodes !! "Back_leg_1_L"%string = Some bl ->
  Rhino.collectBones sk nodes !! "Front_leg_1_R"%string = Some fr ->
  Rhino.collectBones sk nodes !! "Back_leg_1_R"%string = Some br ->
  Rhino.collectBones sk nodes !! "Neck_mover_bone"%string = Some n ->
  ~ Rhino.isLeg fl bl fr br n.
Proof.
  intros Hfl Hbl Hfr Hbr Hn [E|[E|[E|E]]].
  - apply (collectBones_distinct sk nodes "Neck_mover_bone" "Front_leg_1_L" n fl);
      [discriminate|exact Hn|exact Hfl|exact E].
  - apply (collectBones_distinct sk nodes "Neck_mover_bone" "Back_leg_1_L" n bl);
      [discriminate|exact Hn|exact Hbl|exact E].
  - apply (collectBones_distinct sk nodes "Neck_mover_bone" "Front_leg_1_R" n fr);
      [discriminate|exact Hn|exact Hfr|exact E].
  - apply (collectBones_distinct sk nodes "Neck_mover_bone" "Back_leg_1_R" n br);
      [discriminate|exact Hn|exact Hbr|exact E].
Qed.

(** C4. When the four leg joints resolve, the body timeline holds, in
    this order, the wait from 0 to 5, the call that plays the leg loop
    at 5, the root-position tween from 5 to 9, the call that pauses the
    leg loop at 9 and, if the neck resolved, the blend at 9 lasting 1.8
    with the out ease, from the neck's orientation at setup to the
    look-at-viewer orientation.  Along any ticks of the sequencer: the
    leg loop, paused at first, is played exactly once, at the first tick
    at or after 5, and not before; it is paused at the first tick at or
    after 9, where the root reaches its destination, and pausing leaves
    its playhead where it is, wherever in the cycle; until then no
    joint but the legs is written, so the orientation that the blend
    starts from is the neck's current one; a tick during the blend sets
    the neck to the interpolation at the eased share of 1.8, and from
    10.8 on the neck holds the look-at-viewer end of the blend. *)
Theorem C4_mascot_sequence :
  forall (L : Library) (scene : RhinoScene) (sk : Skeleton) (now : R)
         (fl bl fr br : Ref),
    groupMounted scene = true ->
    Rhino.collectBones sk (rhinoNodes scene) !! "Front_leg_1_L"%string = Some fl ->
    Rhino.collectBones sk (rhinoNodes scene) !! "Back_leg_1_L"%string = Some bl ->
    Rhino.collectBones sk (rhinoNodes scene) !! "Front_leg_1_R"%string = Some fr ->
    Rhino.collectBones sk (rhinoNodes scene) !! "Back_leg_1_R"%string = Some br ->
    let neck :=
      Rhino.collectBones sk (rhinoNodes scene) !! "Neck_mover_bone"%string in
    let s0 := Rhino.mount scene sk now in
    Rhino.legsPlaying s0 = false
    /\ Rhino.bodyPending s0 =
         [(0, To Nothing 5 DefaultEase); (5, Call PlayLegs);
          (5, To (RootX (-15) (-9.5)) 4 Power2InOut); (9, Call PauseLegs)]
         ++ match neck with
            | Some n =>
                [(9, To (NeckLookAt n (quaternion (sk n))) 1.8 Power2Out)]
            | None => []
            end
    /\ (forall (s : RhinoState) (tl : Timelines) (t : R),
          timelines s = Some tl ->
          exists tl',
            timelines (Rhino.fire PauseLegs t s) = Some tl'
            /\ paused (legTl tl') = true
            /\ playhead (legTl tl') = playhead (legTl tl))
    /\ forall ticks : list R,
         (~ Rhino.reached now ticks 5 ->
            fired (Rhino.run s0 ticks) = []
            /\ Rhino.legsPlaying (Rhino.run s0 ticks) = false
            /\ positionX (Rhino.run s0 ticks) = -15
            /\ skeleton (Rhino.run s0 ticks) = sk)
         /\ (Rhino.reached now ticks 5 -> ~ Rhino.reached now ticks 9 ->
               Rhino.legsPlaying (Rhino.run s0 ticks) = true
               /\ (exists t1, fired (Rhino.run s0 ticks) = [(PlayLegs, t1)]
                              /\ 5 <= t1 - now)
               /\ forall n, neck = Some n ->
                    skeleton (Rhino.run s0 ticks) n = sk n)
         /\ (Rhino.reached now ticks 9 ->
               Rhino.legsPlaying (Rhino.run s0 ticks) = false
               /\ positionX (Rhino.run s0 ticks) = -9.5
               /\ exists t1 t2,
                    fired (Rhino.run s0 ticks)
                      = [(PauseLegs, t2); (PlayLegs, t1)]
                    /\ 5 <= t1 - now /\ 9 <= t2 - now)
         /\ (forall n t, neck = Some n ->
               Rhino.reached now ticks 9 -> ~ Rhino.reached now ticks 10.8 ->
               9 <= t - now < 10.8 ->
               quaternion (skeleton (Rhino.tick t (Rhino.run s0 ticks)) n)
               = slerpQuaternions (quaternion (sk n)) Rhino.lookAtViewerQuat
                   (ease Power2Out ((t - now - 9) / 1.8)))
         /\ (forall n, neck = Some n -> Rhino.reached now ticks 10.8 ->
               quaternion (skeleton (Rhino.run s0 ticks) n)
               = slerpQuaternions (quaternion (sk n)) Rhino.lookAtViewerQuat 1
               /\ Rhino.bodyPending (Rhino.run s0 ticks) = []).
Proof.
  intros L scene sk now fl bl fr br Hm Hfl Hbl Hfr Hbr neck s0.
  subst s0. rewrite (mount_with_legs scene sk now fl bl fr br Hm Hfl Hbl Hfr Hbr).
  fold neck.
  split; [reflexivity|].
  split; [apply placed_positions|].
  split.
  { intros s tl t Hs. unfold Rhino.fire. rewrite Hs. eexists.
    split; [reflexivity|]. split; reflexivity. }
  intros ticks.
  split; [apply before_the_walk|].
  split.
  { intros R5 N9.
    destruct (during_the_walk sk (Rhino.collectBones sk (rhinoNodes scene))
                fl bl fr br neck now ticks R5 N9)
      as (Hp & Hf & Hsk).
    split; [exact Hp|]. split; [exact Hf|].
    intros n Hn. apply Hsk.
    now apply (neck_is_no_leg sk (rhinoNodes scene) fl bl fr br n). }
  split.
  { intros R9.
    destruct (after_the_walk sk (Rhino.collectBones sk (rhinoNodes scene))
                fl bl fr br neck now ticks R9)
      as (Hp & Hx & Hf & _).
    auto. }
  split.
  - intros n t. apply during_the_turn.
  - intros n. apply after_the_turn.
Qed.

Lemma C4_mascot_sequence_witness :
  Rhino.legsPlaying (Rhino.mount Examples.rhino Examples.joints 0) = false
  /\ Rhino.bodyPending (Rhino.mount Examples.rhino Examples.joints 0) =
       [(0, To Nothing 5 DefaultEase); (5, Call PlayLegs);
        (5, To (RootX (-15) (-9.5)) 4 Power2InOut); (9, Call PauseLegs);
        (9, To (NeckLookAt 4%nat (quaternion (Examples.joints 4%nat))) 1.8
              Power2Out)].
Proof.
  pose proof (C4_mascot_sequence Examples.linearLibrary Examples.rhino
                Examples.joints 0 0%nat 1%nat 2%nat 3%nat
                eq_refl eq_refl eq_refl eq_refl eq_refl) as (Hp & Hb & _).
  split; [exact Hp|exact Hb].
Defined.

(** C7. If any leg joint fails to resolve, setup logs the diagnostic
    and returns before any timeline exists; from there on no tick
    changes anything, so no joint is ever written.  If the four leg
    joints resolve and only the neck does not, a diagnostic is logged,
    the leg loop and the first four steps of the body timeline are what
    they are with a neck, the look-at step alone is absent, the walk
    runs as in C4, and no joint but the legs is ever written. *)
Theorem C7_missing_joints :
  forall (L : Library) (scene : RhinoScene) (sk : Skeleton) (now : R),
    groupMounted scene = true ->
    let found := Rhino.collectBones sk (rhinoNodes scene) in
    let s0 := Rhino.mount scene sk now in
    (found !! "Front_leg_1_L"%string = None
     \/ found !! "Back_leg_1_L"%string = None
     \/ found !! "Front_leg_1_R"%string = None
     \/ found !! "Back_leg_1_R"%string = None ->
       timelines s0 = None
       /\ MissingLegBones ∈ rhinoWarnings s0
       /\ forall ticks : list R,
            Rhino.run s0 ticks = s0
            /\ skeleton (Rhino.run s0 ticks) = sk
            /\ fired (Rhino.run s0 ticks) = [])
    /\ (forall fl bl fr br : Ref,
          found !! "Front_leg_1_L"%string = Some fl ->
          found !! "Back_leg_1_L"%string = Some bl ->
          found !! "Front_leg_1_R"%string = Some fr ->
          found !! "Back_leg_1_R"%string = Some br ->
          (found !! "Neck_mover_bone"%string = None ->
             rhinoWarnings s0 = [NeckBoneNotFound]
             /\ timelines s0 =
                  Some {| legTl := {| loopSteps := Rhino.legSteps fl bl fr br;
                                      paused := true; playhead := 0 |};
                          bodyTl := {| created := now;
                                       pending := Rhino.place 0 Rhino.walkSteps |};
                          lastTick := now |}
             /\ forall ticks : list R,
                  (forall r, ~ Rhino.isLeg fl bl fr br r ->
                     skeleton (Rhino.run s0 ticks) r = sk r)
                  /\ (Rhino.reached now ticks 5 ->
                      ~ Rhino.reached now ticks 9 ->
                      Rhino.legsPlaying (Rhino.run s0 ticks) = true)
                  /\ (Rhino.reached now ticks 9 ->
                      Rhino.legsPlaying (Rhino.run s0 ticks) = false
                      /\ positionX (Rhino.run s0 ticks) = -9.5))
          /\ (forall n : Ref,
                found !! "Neck_mover_bone"%string = Some n ->
                rhinoWarnings s0 = []
                /\ timelines s0 =
                     Some {| legTl := {| loopSteps := Rhino.legSteps fl bl fr br;
                                         paused := true; playhead := 0 |};
                             bodyTl :=
                               {| created := now;
                                  pending :=
                                    Rhino.place 0
                                      (Rhino.walkSteps
                                       ++ [To (NeckLookAt n (quaternion (sk n)))
                                             1.8 Power2Out]) |};
                             lastTick := now |})).
Proof.
  intros L scene sk now Hm found s0. split.
  - intros Hmiss.
    destruct (mount_without_legs scene sk now Hm Hmiss)
      as (Ht & Hsk & Hf & _ & Hw).
    split; [exact Ht|]. split; [exact Hw|].
    intros ticks. fold s0 in Ht, Hsk, Hf.
    rewrite (run_without_timelines s0 ticks Ht). auto.
  - intros fl bl fr br Hfl Hbl Hfr Hbr.
    subst s0. rewrite (mount_with_legs scene sk now fl bl fr br Hm Hfl Hbl Hfr Hbr).
    fold found. split.
    + intros Hn. rewrite Hn.
      split; [reflexivity|]. split.
      { unfold Rhino.walking. cbn [timelines Rhino.lookSteps].
        now rewrite app_nil_r. }
      intros ticks.
      split; [|split].
      * intros r Hr.
        destruct (onSchedule_run sk found fl bl fr br None now ticks)
          as [(_ & lt & Hs)|[(_ & _ & K)|[(_ & _ & [? [=]] & _)|(_ & _ & S)]]].
        -- unfold Rhino.shaped in Hs. now rewrite Hs.
        -- destruct K as (sk' & x & lp & lt & t1 & Hs & _ & Hsk).
           unfold Rhino.shaped in Hs. rewrite Hs. now apply Hsk.
        -- destruct S as (sk' & x & lp & lt & t1 & t2 & Hs & _ & _ & _ & _ & Hsk).
           unfold Rhino.shaped in Hs. rewrite Hs. now apply Hsk.
      * intros R5 N9.
        now destruct (during_the_walk sk found fl bl fr br None now ticks R5 N9).
      * intros R9.
        destruct (after_the_walk sk found fl bl fr br None now ticks R9)
          as (Hp & Hx & _). auto.
    + intros n Hn. rewrite Hn. split; reflexivity.
Qed.

Lemma C7_missing_joints_witness :
  timelines (Rhino.mount Examples.rhinoWithoutLeg Examples.joints 0) = None
  /\ MissingLegBones
       ∈ rhinoWarnings (Rhino.mount Examples.rhinoWithoutLeg Examples.joints 0)
  /\ rhinoWarnings (Rhino.mount Examples.rhinoWithoutNeck Examples.joints 0)
     = [NeckBoneNotFound].
Proof.
  pose proof (proj1 (C7_missing_joints Examples.linearLibrary
                       Examples.rhinoWithoutLeg Examples.joints 0 eq_refl)
                (or_intror (or_intror (or_intror eq_refl))))
    as (Ht & Hw & _).
  pose proof (proj1 (proj2 (C7_missing_joints Examples.linearLibrary
                              Examples.rhinoWithoutNeck Examples.joints 0 eq_refl)
                       0%nat 1%nat 2%nat 3%nat eq_refl eq_refl eq_refl eq_refl)
                eq_refl) as (Hn & _).
  split; [exact Ht|]. split; [exact Hw|exact Hn].
Defined.


(* ================================================================== *)
(** * Part III: further properties of the code *)
(* ================================================================== *)

(** ** The flag's setup *)



(** X2. When the component's group is not mounted, setup returns at
    once and logs nothing; when the Flag node is missing or is not a
    group, it logs the diagnostic and returns.  In both cases no target
    is stored and no tween is started, and from there on, whatever the
    host does, [rippleMesh] is never called and no geometry changes. *)
Theorem X2_setup_without_flag_group :
  forall (L : Library) (scene : FlagScene) (h : Geometries) (now : R)
         (es : list Flag.Event),
    rootMounted scene = false \/ flagLookup scene = Missing
      \/ flagLookup scene = NotAGroup ->
    let result := Flag.mount scene h now in
    fst result = Returned
    /\ warnings (snd result)
       = (if rootMounted scene then [FlagGroupNotFound] else [])
    /\ flagRef (snd result) = noTargets
    /\ tween (snd result) = NoTween
    /\ rippled (Flag.run (snd result) es) = []
    /\ geometries (Flag.run (snd result) es) = h.
Proof.
  intros L scene h now es Hcase result.
  assert (E : result = (Returned, Flag.initial h) /\ rootMounted scene = false
              \/ result = (Returned, Flag.warn FlagGroupNotFound (Flag.initial h))
                 /\ rootMounted scene = true).
  { subst result. unfold Flag.mount, Flag.setup.
    destruct (rootMounted scene); cbn [negb]; [right|left; auto].
    destruct Hcase as [?|[->| ->]]; [discriminate|auto..]. }
  destruct E as [[-> ->]|[-> ->]]; cbn [fst snd];
    (split; [reflexivity|]); (split; [reflexivity|]);
    (split; [reflexivity|]); (split; [reflexivity|]).
  - destruct (idle_run h (Flag.initial h) es) as (_ & _ & Hr & Hg & _);
      [repeat split|]. auto.
  - destruct (idle_run h (Flag.warn FlagGroupNotFound (Flag.initial h)) es)
      as (_ & _ & Hr & Hg & _); [repeat split|]. auto.
Qed.

Lemma X2_setup_without_flag_group_witness :
  warnings (snd (Flag.mount Cases.missingGroup Examples.store 0))
    = [FlagGroupNotFound]
  /\ warnings (snd (Flag.mount Cases.unmounted Examples.store 0)) = []
  /\ rippled (@Flag.run Examples.linearLibrary
                (snd (Flag.mount Cases.missingGroup Examples.store 0))
                Cases.session) = [].
Proof.
  pose proof (X2_setup_without_flag_group Examples.linearLibrary
                Cases.missingGroup Examples.store 0 Cases.session
                (or_intror (or_introl eq_refl))) as (_ & Hw & _ & _ & Hr & _).
  pose proof (X2_setup_without_flag_group Examples.linearLibrary
                Cases.unmounted Examples.store 0 Cases.session
                (or_introl eq_refl)) as (_ & Hw' & _).
  split; [exact Hw|]. split; [exact Hw'|exact Hr].
Defined.


(** ** What a run of the flag keeps *)

Section FlagKeeps.
Context `{Library}.

Lemma tick_flagRef now s : flagRef (Flag.tick now s) = flagRef s.
Proof.
  unfold Flag.tick.
  destruct (tween s) as [|t0|t0]; [reflexivity| |];
    destruct (Rle_dec _ _); reflexivity.
Qed.

Lemma step_flagRef s e : flagRef (Flag.step s e) = flagRef s.
Proof.
  destruct e as [now|elapsed| | |]; cbn [Flag.step].
  - apply tick_flagRef.
  - apply useFrame_flagRef.
  - unfold Flag.onClick. now destruct (Rlt_dec _ _).
  - unfold Flag.onPointerOver. now destruct (Rlt_dec _ _).
  - reflexivity.
Qed.

Lemma run_flagRef s es : flagRef (Flag.run s es) = flagRef s.
Proof.
  apply (run_invariant (fun s' => flagRef s' = flagRef s)); [|reflexivity].
  intros s' e E. now rewrite step_flagRef.
Qed.

Lemma step_geometries_other s e r :
  r ∉ geometry <$> Flag.targetMeshes (flagRef s) ->
  geometries (Flag.step s e) r = geometries s r.
Proof.
  intros Hr. destruct e as [now|elapsed| | |]; cbn [Flag.step].
  - now rewrite tick_geometries.
  - destruct (useFrame_cases elapsed s) as [->|[_ ->]]; [reflexivity|].
    rewrite rippleAll_geometries. now rewrite decide_False.
  - now rewrite onClick_geometries.
  - now rewrite onPointerOver_geometries.
  - reflexivity.
Qed.

Lemma run_geometries_other s es r :
  r ∉ geometry <$> Flag.targetMeshes (flagRef s) ->
  geometries (Flag.run s es) r = geometries s r.
Proof.
  intros Hr.
  apply (run_invariant
           (fun s' => flagRef s' = flagRef s
                      /\ geometries s' r = geometries s r)); [|auto].
  intros s' e [Ef Eg]. split.
  - now rewrite step_flagRef.
  - rewrite step_geometries_other; [exact Eg|now rewrite Ef].
Qed.

Lemma rippleGeometry_normals time h g :
  normalsComputed (RippleField.rippleGeometry time h g) = normalsComputed g.
Proof.
  unfold RippleField.rippleGeometry. now destruct (originalPositions g).
Qed.

Lemma run_count s es r :
  count (geometries (Flag.run s es) r) = count (geometries s r).
Proof.
  destruct (run_geometries s es r) as [->|(time & h & ->)]; [reflexivity|].
  apply rippleGeometry_count.
Qed.

End FlagKeeps.

(** X3. Whatever the host does, in whatever order, a geometry that none
    of the stored targets refers to is never written: it stays exactly
    as it was, flags included.  The stored targets themselves never
    change either. *)
Theorem X3_only_targets_are_written :
  forall (L : Library) (s : FlagState) (es : list Flag.Event) (r : Ref),
    r ∉ geometry <$> Flag.targetMeshes (flagRef s) ->
    geometries (Flag.run s es) r = geometries s r
    /\ flagRef (Flag.run s es) = flagRef s.
Proof.
  intros L s es r Hr. split.
  - now apply run_geometries_other.
  - apply run_flagRef.
Qed.

Lemma X3_only_targets_are_written_witness :
  geometries (@Flag.run Examples.linearLibrary Examples.waving Cases.session)
    7%nat
  = geometries Examples.waving 7%nat.
Proof.
  apply (X3_only_targets_are_written Examples.linearLibrary Examples.waving
           Cases.session 7%nat).
  cbn. intros Hin.
  repeat (apply elem_of_cons in Hin as [Hin|Hin]; [discriminate Hin|]).
  now apply elem_of_nil in Hin.
Defined.


(** ** The mounted flag along a run *)

Section MountedFlag.

Lemma cacheEach_positions slots h r :
  position (snd (Flag.cacheEach slots h) r) = position (h r).
Proof.
  induction slots as [|[m|] slots IH] in h |- *; cbn [Flag.cacheEach snd];
    [reflexivity| |reflexivity].
  rewrite IH. unfold insert, fn_insert. case_decide; [subst|]; reflexivity.
Qed.

(** Whatever its outcome, setup leaves every position array as it was. *)
Lemma mount_positions scene h now r :
  position (geometries (snd (Flag.mount scene h now)) r) = position (h r).
Proof.
  unfold Flag.mount, Flag.setup.
  destruct (rootMounted scene); cbn [negb]; [|reflexivity].
  destruct (flagLookup scene) as [| |nodes]; [reflexivity..|].
  destruct (primary _); [|reflexivity].
  destruct (secondary _); [|reflexivity].
  pose proof (cacheEach_positions
                (Flag.slots (Flag.select
                   (Classifier.rank (geometries (Flag.initial h)) nodes)))
                (geometries (Flag.initial h)) r) as E.
  destruct (Flag.cacheEach _ _) as [[|] h']; exact E.
Qed.

Lemma sortBy_ext {A} (cmp1 cmp2 : A -> A -> Z) l :
  (forall a b, cmp1 a b = cmp2 a b) ->
  Classifier.sortBy cmp1 l = Classifier.sortBy cmp2 l.
Proof.
  intros E. unfold Classifier.sortBy.
  induction l as [|x l IH]; cbn [foldr]; [reflexivity|].
  rewrite IH. generalize (foldr (Classifier.insertBy cmp2) [] l) as l'.
  induction l' as [|y l' IH']; cbn; [reflexivity|].
  now rewrite E, IH'.
Qed.

Lemma rank_ext h1 h2 nodes :
  (forall r, count (h1 r) = count (h2 r)) ->
  Classifier.rank h1 nodes = Classifier.rank h2 nodes.
Proof.
  intros E. unfold Classifier.rank. apply sortBy_ext. intros a b.
  unfold Classifier.comparator, Classifier.vertexCount. now rewrite !E.
Qed.

End MountedFlag.

(** X4. On a flag mounted on five meshes or more, whatever the host does
    afterwards, every target keeps the cache that setup made, equal to
    the positions as they were loaded; its buffer keeps its length and
    its normals stay computed. *)
Theorem X4_rest_cache_is_kept :
  forall (L : Library) (nodes : list Object3D) (h : Geometries) (now : R)
         (es : list Flag.Event) (m : Mesh),
    (5 <= length (Classifier.collectMeshes nodes))%nat ->
    m ∈ take 5 (Classifier.rank h nodes) ->
    let s0 :=
      snd (Flag.mount {| rootMounted := true; flagLookup := FlagGroup nodes |}
             h now) in
    originalPositions (geometries (Flag.run s0 es) (geometry m))
      = Some (position (h (geometry m)))
    /\ length (position (geometries (Flag.run s0 es) (geometry m)))
       = length (position (h (geometry m)))
    /\ normalsComputed (geometries (Flag.run s0 es) (geometry m)) = true.
Proof.
  intros L nodes h now es m Hlen Hm s0.
  destruct (setup_completes_with_five_meshes nodes h now Hlen)
    as (_ & Hf & _ & _ & _ & Hc).
  fold s0 in Hf, Hc.
  rewrite <- targetMeshes_select, <- Hf in Hm.
  destruct (Hc m Hm) as (Hn & Ho & Hp).
  destruct (run_geometries s0 es (geometry m)) as [->|(time & ht & ->)].
  - rewrite Hp. auto.
  - rewrite rippleGeometry_original, rippleGeometry_length,
      rippleGeometry_normals, Hp. auto.
Qed.

Lemma X4_rest_cache_is_kept_witness :
  originalPositions
    (geometries
       (@Flag.run Examples.linearLibrary
          (snd (Flag.mount (Examples.sceneOf Examples.fiveMeshes)
                  Cases.triangles 0))
          Cases.session)
       (geometry Examples.plane))
  = Some (position Cases.triangle).
Proof.
  apply (X4_rest_cache_is_kept Examples.linearLibrary Examples.fiveMeshes
           Cases.triangles 0 Cases.session Examples.plane).
  - cbn. lia.
  - cbn. apply list_elem_of_further, list_elem_of_here.
Defined.

(** X5. On a flag mounted on five meshes or more, at every moment of
    every run, each vertex of each target is its loaded position moved
    by one and the same amount in y and in z, and not at all in x. *)
Theorem X5_vertices_move_on_the_diagonal :
  forall (L : Library) (nodes : list Object3D) (h : Geometries) (now : R)
         (es : list Flag.Event) (m : Mesh) (i : nat) (x y z : R),
    (5 <= length (Classifier.collectMeshes nodes))%nat ->
    m ∈ take 5 (Classifier.rank h nodes) ->
    RippleField.vertex (position (h (geometry m))) i = Some (x, y, z) ->
    let s0 :=
      snd (Flag.mount {| rootMounted := true; flagLookup := FlagGroup nodes |}
             h now) in
    exists d : R,
      RippleField.vertex
        (position (geometries (Flag.run s0 es) (geometry m))) i
      = Some (x, y + d, z + d).
Proof.
  intros L nodes h now es m i x y z Hlen Hm Hv s0.
  destruct (setup_completes_with_five_meshes nodes h now Hlen)
    as (_ & Hf & _ & _ & _ & Hc).
  fold s0 in Hf, Hc.
  rewrite <- targetMeshes_select, <- Hf in Hm.
  destruct (Hc m Hm) as (Hn & Ho & Hp).
  destruct (run_geometries s0 es (geometry m)) as [->|(time & ht & ->)].
  - exists 0. rewrite Hp, Hv. do 3 f_equal; lra.
  - exists (RippleField.wave time ht x).
    apply (rippleGeometry_vertex time ht _ (position (h (geometry m))));
      [exact Ho|now rewrite Hp|exact Hv].
Qed.

Lemma X5_vertices_move_on_the_diagonal_witness :
  exists d : R,
    RippleField.vertex
      (position
         (geometries
            (@Flag.run Examples.linearLibrary
               (snd (Flag.mount (Examples.sceneOf Examples.fiveMeshes)
                       Cases.triangles 0))
               Cases.session)
            (geometry Examples.plane))) 2
    = Some (2, 0 + d, 1 + d).
Proof.
  apply (X5_vertices_move_on_the_diagonal Examples.linearLibrary
           Examples.fiveMeshes Cases.triangles 0 Cases.session
           Examples.plane 2 2 0 1).
  - cbn. lia.
  - cbn. apply list_elem_of_further, list_elem_of_here.
  - reflexivity.
Defined.

(** X6. Neither setup, whatever its outcome, nor anything the host does
    afterwards changes a vertex count, so ranking any group again at
    any later moment gives the ranking it had before setup; on a flag
    mounted on five meshes or more, selecting again gives the stored
    targets. *)
Theorem X6_ranking_is_stable :
  forall (L : Library) (scene : FlagScene) (h : Geometries) (now : R)
         (es : list Flag.Event),
    let s0 := snd (Flag.mount scene h now) in
    (forall r : Ref, count (geometries (Flag.run s0 es) r) = count (h r))
    /\ (forall group : list Object3D,
          Classifier.rank (geometries (Flag.run s0 es)) group
          = Classifier.rank h group)
    /\ (forall nodes : list Object3D,
          scene = {| rootMounted := true; flagLookup := FlagGroup nodes |} ->
          (5 <= length (Classifier.collectMeshes nodes))%nat ->
          Flag.select (Classifier.rank (geometries (Flag.run s0 es)) nodes)
          = flagRef (Flag.run s0 es)).
Proof.
  intros L scene h now es s0.
  assert (Hc : forall r, count (geometries (Flag.run s0 es) r) = count (h r)).
  { intros r. rewrite run_count. unfold count, s0.
    now rewrite mount_positions. }
  split; [exact Hc|].
  split; [intros group; now apply rank_ext|].
  intros nodes -> Hlen.
  rewrite (rank_ext _ h nodes Hc), run_flagRef.
  symmetry. apply (setup_completes_with_five_meshes nodes h now Hlen).
Qed.

Lemma X6_ranking_is_stable_witness :
  Flag.select
    (Classifier.rank
       (geometries
          (@Flag.run Examples.linearLibrary
             (snd (Flag.mount (Examples.sceneOf Examples.fiveMeshes)
                     Examples.store 0))
             Cases.session))
       Examples.fiveMeshes)
  = flagRef
      (@Flag.run Examples.linearLibrary
         (snd (Flag.mount (Examples.sceneOf Examples.fiveMeshes)
                 Examples.store 0))
         Cases.session).
Proof.
  apply (proj2 (proj2 (X6_ranking_is_stable Examples.linearLibrary
                         (Examples.sceneOf Examples.fiveMeshes)
                         Examples.store 0 Cases.session))
           Examples.fiveMeshes eq_refl).
  cbn. lia.
Defined.


(** ** The shape of the ripple *)

Section RippleShape.
Import RippleField.

Lemma edgeFactor_mono x y : x <= y -> edgeFactor x <= edgeFactor y.
Proof.
  unfold edgeFactor, width. intros Hxy.
  apply Rle_min_compat_r, Rle_max_compat_r. lra.
Qed.

Lemma cell_ext t1 t2 h original j :
  (forall x, wave t1 h x = wave t2 h x) ->
  cell t1 h original j = cell t2 h original j.
Proof. intros E. unfold cell. now rewrite E. Qed.

(** Two clock values at which the wave agrees everywhere give the same
    pass. *)
Lemma rippleGeometry_ext t1 t2 h g :
  (forall x, wave t1 h x = wave t2 h x) ->
  rippleGeometry t1 h g = rippleGeometry t2 h g.
Proof.
  intros E. unfold rippleGeometry.
  destruct (originalPositions g) as [o|]; [|reflexivity].
  f_equal. apply list_eq. intros j. rewrite !rippleLoop_lookup.
  case_decide; [|reflexivity].
  destruct (position g !! j); [|reflexivity].
  cbn. f_equal. now apply cell_ext.
Qed.

Lemma wave_period t h x (k : nat) :
  wave (t + INR k * (2 * PI / waveSpeed)) h x = wave t h x.
Proof.
  unfold wave, waveSpeed.
  replace ((t + INR k * (2 * PI / 4.2)) * 4.2 + x * waveLength)
    with (t * 4.2 + x * waveLength + 2 * INR k * PI) by (field; lra).
  now rewrite sin_period.
Qed.

End RippleShape.

(** X7. The edge factor is a ramp: between 0 and 1 everywhere, never
    decreasing in x, 0 up to x = -2, (x + 2) / 4 between -2 and 2, and 1
    from x = 2 on.  So a target's cached vertex at or left of x = -2 is
    left at its rest position by every frame. *)
Theorem X7_edge_factor_is_a_ramp :
  (forall x : R, 0 <= RippleField.edgeFactor x <= 1)
  /\ (forall x y : R,
        x <= y -> RippleField.edgeFactor x <= RippleField.edgeFactor y)
  /\ (forall x : R, x <= -2 -> RippleField.edgeFactor x = 0)
  /\ (forall x : R, -2 <= x <= 2 -> RippleField.edgeFactor x = (x + 2) / 4)
  /\ (forall x : R, 2 <= x -> RippleField.edgeFactor x = 1)
  /\ (forall (s : FlagState) (time : R) (p q m : Mesh) (original : list R)
             (i : nat) (x y z : R),
        0 < waveStrength s ->
        primary (flagRef s) = Some p -> secondary (flagRef s) = Some q ->
        m ∈ Flag.targetMeshes (flagRef s) ->
        originalPositions (geometries s (geometry m)) = Some original ->
        length original = length (position (geometries s (geometry m))) ->
        RippleField.vertex original i = Some (x, y, z) ->
        x <= -2 ->
        RippleField.vertex
          (position (geometries (Flag.useFrame time s) (geometry m))) i
        = Some (x, y, z)).
Proof.
  split; [apply edgeFactor_range|].
  split; [apply edgeFactor_mono|].
  split; [intros x Hx; apply edgeFactor_anchored;
          unfold RippleField.width; lra|].
  split; [intros x Hx; apply edgeFactor_inside;
          unfold RippleField.width; lra|].
  split; [intros x Hx; apply edgeFactor_free;
          unfold RippleField.width; lra|].
  intros s time p q m original i x y z Hpos Hp Hq Hm Ho Hlen Hv Hx.
  destruct (useFrame_vertex s time p q m original i x y z) as [-> _]; auto.
  rewrite <- wave_displace. unfold RippleField.wave.
  rewrite edgeFactor_anchored by (unfold RippleField.width; lra).
  do 3 f_equal; lra.
Qed.

Lemma X7_edge_factor_is_a_ramp_witness :
  RippleField.edgeFactor (-3) <= RippleField.edgeFactor 1
  /\ RippleField.edgeFactor (-3) = 0
  /\ RippleField.edgeFactor 1 = (1 + 2) / 4
  /\ RippleField.edgeFactor 5 = 1
  /\ RippleField.vertex
       (position (geometries (Flag.useFrame 3 Examples.waving) 2%nat)) 0
     = Some (-2, 1, 3).
Proof.
  destruct X7_edge_factor_is_a_ramp as (_ & Hm & H0 & Hi & H1 & Hf).
  split; [apply Hm; lra|]. split; [apply H0; lra|].
  split; [apply Hi; lra|]. split; [apply H1; lra|].
  apply (Hf Examples.waving 3 Examples.horn Examples.plane Examples.pole
           [-2; 1; 3] 0%nat (-2) 1 3).
  - cbn. lra.
  - reflexivity.
  - reflexivity.
  - cbn. apply list_elem_of_further, list_elem_of_further, list_elem_of_here.
  - reflexivity.
  - reflexivity.
  - reflexivity.
  - lra.
Defined.

(** X8. For a fixed amplitude the ripple repeats in the clock: frames at
    clock values a multiple of 2 pi / 4.2 apart leave the same buffers. *)
Theorem X8_ripple_is_periodic_in_time :
  forall (s : FlagState) (time : R) (k : nat) (r : Ref),
    geometries
      (Flag.useFrame (time + INR k * (2 * PI / RippleField.waveSpeed)) s) r
    = geometries (Flag.useFrame time s) r.
Proof.
  intros s time k r.
  destruct (Rle_dec (waveStrength s) 0) as [Hle|Hpos].
  { now rewrite !useFrame_idle by now left. }
  destruct (primary (flagRef s)) as [p|] eqn:Hp.
  2: { now rewrite !useFrame_idle by now (right; left). }
  destruct (secondary (flagRef s)) as [q|] eqn:Hq.
  2: { now rewrite !useFrame_idle by now (right; right). }
  assert (0 < waveStrength s) as Hpos' by lra.
  rewrite !(useFrame_geometries _ s p q r Hpos' Hp Hq).
  case_decide; [|reflexivity].
  apply rippleGeometry_ext. intros x. apply wave_period.
Qed.


(** ** Navigation *)

Section Navigation.
Context `{Library}.

Lemma flag_run_snoc s es e :
  Flag.run s (es ++ [e]) = Flag.step (Flag.run s es) e.
Proof. unfold Flag.run. now rewrite fold_left_app. Qed.

Lemma tick_navigated now s : navigated (Flag.tick now s) = navigated s.
Proof.
  unfold Flag.tick.
  destruct (tween s) as [|t0|t0]; [reflexivity| |];
    destruct (Rle_dec _ _); reflexivity.
Qed.

Lemma useFrame_navigated time s :
  navigated (Flag.useFrame time s) = navigated s.
Proof.
  destruct (useFrame_cases time s) as [->|[_ ->]]; [reflexivity|].
  apply rippleAll_simple.
Qed.

(** A step turns [navigated] on only if it is a click at an amplitude
    that is not positive; no step turns it off. *)
Lemma step_navigated s e :
  navigated (Flag.step s e) = navigated s
  \/ (e = Flag.Click /\ waveStrength s <= 0
      /\ navigated (Flag.step s e) = true).
Proof.
  destruct e as [now|elapsed| | |]; cbn [Flag.step].
  - left. apply tick_navigated.
  - left. apply useFrame_navigated.
  - unfold Flag.onClick. destruct (Rlt_dec 0 (waveStrength s)); [now left|].
    right. repeat split. lra.
  - left. unfold Flag.onPointerOver. now destruct (Rlt_dec _ _).
  - now left.
Qed.

End Navigation.

(** X9. Navigation, once it has happened, stays; and it happens only
    through a click that arrives when the amplitude is not positive:
    ticks, frames, hovering and clicks during the waving never
    navigate. *)
Theorem X9_only_a_click_at_rest_navigates :
  forall (L : Library) (s : FlagState) (es : list Flag.Event),
    (navigated s = true -> navigated (Flag.run s es) = true)
    /\ (navigated s = false -> navigated (Flag.run s es) = true ->
        exists es1 es2,
          es = es1 ++ Flag.Click :: es2
          /\ waveStrength (Flag.run s es1) <= 0).
Proof.
  intros L s es. split.
  - apply (run_invariant (fun s' => navigated s' = true)).
    intros s' e Hn. destruct (step_navigated s' e) as [->|(_ & _ & ->)]; auto.
  - intros Hs. induction es as [|e es IH] using rev_ind; intros Hn.
    + cbn in Hn. congruence.
    + rewrite flag_run_snoc in Hn.
      destruct (navigated (Flag.run s es)) eqn:Hes.
      * destruct (IH eq_refl) as (es1 & es2 & -> & Hw).
        exists es1, (es2 ++ [e]). split; [|exact Hw].
        now rewrite <- app_assoc.
      * destruct (step_navigated (Flag.run s es) e) as [E|(-> & Hw & _)];
          [congruence|].
        exists es, []. auto.
Qed.

Lemma X9_only_a_click_at_rest_navigates_witness :
  exists es1 es2,
    [Flag.Frame 1; Flag.Click] = es1 ++ Flag.Click :: es2
    /\ waveStrength (@Flag.run Examples.linearLibrary Examples.still es1) <= 0.
Proof.
  apply (proj2 (X9_only_a_click_at_rest_navigates Examples.linearLibrary
                  Examples.still [Flag.Frame 1; Flag.Click])).
  - reflexivity.
  - unfold Flag.run. cbn [fold_left Flag.step].
    rewrite (useFrame_idle 1 Examples.still) by (left; cbn; lra).
    apply onClick_navigates. cbn. lra.
Defined.


(** ** Joint resolution *)

Section JointResolution.
Variable sk : Skeleton.

#[local] Abbreviation record :=
  (fun (found : gmap string Ref) node =>
     match node with
     | BoneNode b => <[bone_name (sk b) := b]> found
     | PlainNode => found
     end).

Lemma record_other k nodes (m : gmap string Ref) :
  (forall b, BoneNode b ∈ nodes -> bone_name (sk b) <> k) ->
  fold_left record nodes m !! k = m !! k.
Proof.
  induction nodes as [|[b|] nodes IH] in m |- *; intros Hk; cbn [fold_left].
  - reflexivity.
  - rewrite IH by (intros b' Hb'; apply Hk; now apply list_elem_of_further).
    apply lookup_insert_ne, Hk, list_elem_of_here.
  - apply IH. intros b' Hb'. apply Hk. now apply list_elem_of_further.
Qed.

Lemma collectBones_app l1 l2 :
  Rhino.collectBones sk (l1 ++ l2)
  = fold_left record l2 (Rhino.collectBones sk l1).
Proof. unfold Rhino.collectBones. apply fold_left_app. Qed.

(** The last bone of a name is the one that the name resolves to. *)
Lemma collectBones_last l1 r l2 :
  (forall b, BoneNode b ∈ l2 -> bone_name (sk b) <> bone_name (sk r)) ->
  Rhino.collectBones sk (l1 ++ BoneNode r :: l2) !! bone_name (sk r) = Some r.
Proof.
  intros Hl2. rewrite collectBones_app. cbn [fold_left].
  rewrite record_other by exact Hl2. apply lookup_insert_eq.
Qed.

(** A bone of name [k] has a last one of its kind. *)
Lemma last_bone_named k nodes b :
  BoneNode b ∈ nodes -> bone_name (sk b) = k ->
  exists l1 r l2,
    nodes = l1 ++ BoneNode r :: l2 /\ bone_name (sk r) = k
    /\ forall b', BoneNode b' ∈ l2 -> bone_name (sk b') <> k.
Proof.
  induction nodes as [|n nodes IH] using rev_ind; intros Hin Hk.
  - now apply elem_of_nil in Hin.
  - destruct n as [c|].
    + destruct (decide (bone_name (sk c) = k)) as [Hc|Hc].
      * exists nodes, c, []. split; [reflexivity|]. split; [exact Hc|].
        intros b' Hb'. now apply elem_of_nil in Hb'.
      * apply elem_of_app in Hin as [Hin|Hin].
        -- destruct (IH Hin Hk) as (l1 & r & l2 & -> & Hr & Hl2).
           exists l1, r, (l2 ++ [BoneNode c]).
           split; [now rewrite <- app_assoc|]. split; [exact Hr|].
           intros b' [Hb'|Hb']%elem_of_app; [now apply Hl2|].
           apply list_elem_of_singleton in Hb'. congruence.
        -- apply list_elem_of_singleton in Hin. congruence.
    + apply elem_of_app in Hin as [Hin|Hin].
      * destruct (IH Hin Hk) as (l1 & r & l2 & -> & Hr & Hl2).
        exists l1, r, (l2 ++ [PlainNode]).
        split; [now rewrite <- app_assoc|]. split; [exact Hr|].
        intros b' [Hb'|Hb']%elem_of_app; [now apply Hl2|].
        apply list_elem_of_singleton in Hb'. discriminate.
      * apply list_elem_of_singleton in Hin. discriminate.
Qed.

Lemma collectBones_none k nodes :
  Rhino.collectBones sk nodes !! k = None
  <-> forall b, BoneNode b ∈ nodes -> bone_name (sk b) <> k.
Proof.
  split.
  - intros Hnone b Hin Hk.
    destruct (last_bone_named k nodes b Hin Hk) as (l1 & r & l2 & -> & <- & Hl2).
    rewrite collectBones_last in Hnone by exact Hl2. discriminate.
  - intros Hk. unfold Rhino.collectBones.
    rewrite record_other by exact Hk. apply lookup_empty.
Qed.

Lemma collectBones_elem k nodes r :
  Rhino.collectBones sk nodes !! k = Some r -> BoneNode r ∈ nodes.
Proof.
  induction nodes as [|n nodes IH] using rev_ind.
  - unfold Rhino.collectBones. cbn. now rewrite lookup_empty.
  - rewrite collectBones_app. cbn [fold_left]. intros Hsome.
    apply elem_of_app. destruct n as [b|]; [|left; now apply IH].
    destruct (decide (bone_name (sk b) = k)) as [Hb|Hb].
    + subst k. rewrite lookup_insert_eq in Hsome. injection Hsome as <-.
      right. apply list_elem_of_here.
    + rewrite lookup_insert_ne in Hsome by exact Hb. left. now apply IH.
Qed.

Lemma collectBones_some k nodes r :
  Rhino.collectBones sk nodes !! k = Some r
  <-> exists l1 l2,
        nodes = l1 ++ BoneNode r :: l2 /\ bone_name (sk r) = k
        /\ forall b, BoneNode b ∈ l2 -> bone_name (sk b) <> k.
Proof.
  split.
  - intros Hsome.
    pose proof (collectBones_elem k nodes r Hsome) as Hin.
    pose proof (collectBones_names sk nodes k r Hsome) as Hk.
    destruct (last_bone_named k nodes r Hin Hk)
      as (l1 & r' & l2 & -> & Hr' & Hl2).
    subst k. rewrite <- Hr' in Hsome, Hl2.
    rewrite collectBones_last in Hsome by exact Hl2.
    injection Hsome as <-. eauto.
  - intros (l1 & l2 & -> & <- & Hl2). now apply collectBones_last.
Qed.

End JointResolution.

(** X10. A joint name resolves exactly when some bone visited by the
    traversal carries it, and then to the last such bone: no name
    resolves to a bone of another name, a name that no bone carries
    resolves to nothing, and of two bones of one name the later one
    wins. *)
Theorem X10_joint_resolution :
  forall (sk : Skeleton) (nodes : list RhinoNode) (k : string),
    (Rhino.collectBones sk nodes !! k = None
     <-> forall b, BoneNode b ∈ nodes -> bone_name (sk b) <> k)
    /\ (forall r : Ref,
          Rhino.collectBones sk nodes !! k = Some r
          <-> exists l1 l2,
                nodes = l1 ++ BoneNode r :: l2 /\ bone_name (sk r) = k
                /\ forall b, BoneNode b ∈ l2 -> bone_name (sk b) <> k).
Proof.
  intros sk nodes k. split.
  - apply collectBones_none.
  - intros r. apply collectBones_some.
Qed.

(** Of the two bones that carry the neck's name in [Cases.twoNecks],
    the one visited later is the neck. *)
Example later_neck_wins :
  Rhino.collectBones Cases.jointsTwoNecks (rhinoNodes Cases.twoNecks)
    !! "Neck_mover_bone"%string = Some 9%nat.
Proof.
  apply collectBones_some.
  exists [BoneNode 4; BoneNode 0; BoneNode 1; BoneNode 2; BoneNode 3;
          PlainNode], [].
  split; [reflexivity|]. split; [reflexivity|].
  intros b Hb. now apply elem_of_nil in Hb.
Qed.

(** X11. With its group mounted, the mascot's setup creates its
    timelines exactly when each of the four leg names is carried by some
    bone of the scene; with the group not mounted it does nothing at
    all: no joint is looked up, nothing is logged, no timeline exists. *)
Theorem X11_timelines_exist_iff_the_legs_resolve :
  forall (scene : RhinoScene) (sk : Skeleton) (now : R),
    (groupMounted scene = true ->
     (timelines (Rhino.mount scene sk now) = None
      <-> exists k : string,
            k ∈ ["Front_leg_1_L"; "Back_leg_1_L"; "Front_leg_1_R";
                 "Back_leg_1_R"]%string
            /\ forall b, BoneNode b ∈ rhinoNodes scene ->
                 bone_name (sk b) <> k))
    /\ (groupMounted scene = false ->
        Rhino.mount scene sk now = Rhino.initial sk).
Proof.
  intros scene sk now. split.
  - intros Hm. split.
    + intros Hnone.
      destruct (Rhino.collectBones sk (rhinoNodes scene) !! "Front_leg_1_L"%string)
        as [fl|] eqn:Hfl.
      2: { exists "Front_leg_1_L"%string. split; [apply list_elem_of_here|].
           now apply collectBones_none. }
      destruct (Rhino.collectBones sk (rhinoNodes scene) !! "Back_leg_1_L"%string)
        as [bl|] eqn:Hbl.
      2: { exists "Back_leg_1_L"%string.
           split; [apply list_elem_of_further, list_elem_of_here|].
           now apply collectBones_none. }
      destruct (Rhino.collectBones sk (rhinoNodes scene) !! "Front_leg_1_R"%string)
        as [fr|] eqn:Hfr.
      2: { exists "Front_leg_1_R"%string.
           split; [do 2 apply list_elem_of_further; apply list_elem_of_here|].
           now apply collectBones_none. }
      destruct (Rhino.collectBones sk (rhinoNodes scene) !! "Back_leg_1_R"%string)
        as [br|] eqn:Hbr.
      2: { exists "Back_leg_1_R"%string.
           split; [do 3 apply list_elem_of_further; apply list_elem_of_here|].
           now apply collectBones_none. }
      rewrite (mount_with_legs scene sk now fl bl fr br Hm Hfl Hbl Hfr Hbr)
        in Hnone.
      discriminate.
    + intros (k & Hk & Hno).
      apply collectBones_none in Hno.
      apply (mount_without_legs scene sk now Hm).
      repeat (apply elem_of_cons in Hk as [->|Hk]; [tauto|]).
      now apply elem_of_nil in Hk.
  - intros Hm. unfold Rhino.mount, Rhino.setup. now rewrite Hm.
Qed.

Lemma X11_timelines_exist_iff_the_legs_resolve_witness :
  timelines (Rhino.mount Examples.rhinoWithoutLeg Examples.joints 0) = None
  /\ Rhino.mount Cases.unmountedRhino Examples.joints 0
     = Rhino.initial Examples.joints.
Proof.
  destruct (X11_timelines_exist_iff_the_legs_resolve Examples.rhinoWithoutLeg
              Examples.joints 0) as [Hm _].
  destruct (X11_timelines_exist_iff_the_legs_resolve Cases.unmountedRhino
              Examples.joints 0) as [_ Hu].
  split; [|exact (Hu eq_refl)].
  apply (Hm eq_refl). exists "Back_leg_1_R"%string.
  split; [do 3 apply list_elem_of_further; apply list_elem_of_here|].
  intros b Hb. cbn in Hb.
  repeat (apply elem_of_cons in Hb as [Hb|Hb];
          [first [discriminate Hb
                 | injection Hb as ->; cbn; discriminate]|]).
  now apply elem_of_nil in Hb.
Defined.

(** ** The leg cycle *)

(** X12. The two halves of the leg cycle join: if the interpolation
    returns its first orientation at 0 and its second at 1, the pose
    that the first half-cycle ends on is the pose that the second starts
    from, and the pose that the second ends on is the one that the
    first starts from, joint by joint; so looping the two never makes a
    leg jump. *)
Theorem X12_half_cycles_join :
  forall (L : Library) (fl bl fr br : Ref) (s : RhinoState) (r : Ref),
    (forall qa qb, slerpQuaternions qa qb 0 = qa) ->
    (forall qa qb, slerpQuaternions qa qb 1 = qb) ->
    skeleton (Rhino.applyUpdate (LegsHalfCycle1 fl bl fr br) 1 s) r
    = skeleton (Rhino.applyUpdate (LegsHalfCycle2 fl bl fr br) 0 s) r
    /\ skeleton (Rhino.applyUpdate (LegsHalfCycle2 fl bl fr br) 1 s) r
       = skeleton (Rhino.applyUpdate (LegsHalfCycle1 fl bl fr br) 0 s) r.
Proof.
  intros L fl bl fr br s r H0 H1.
  cbn [Rhino.applyUpdate Rhino.set_skeleton skeleton].
  unfold Rhino.slerpInto. rewrite !H0, !H1. split; reflexivity.
Qed.

Lemma X12_half_cycles_join_witness :
  skeleton
    (@Rhino.applyUpdate Cases.endpointLibrary (LegsHalfCycle1 0 1 2 3) 1
       (Rhino.initial Examples.joints)) 2%nat
  = skeleton
      (@Rhino.applyUpdate Cases.endpointLibrary (LegsHalfCycle2 0 1 2 3) 0
         (Rhino.initial Examples.joints)) 2%nat.
Proof.
  apply (X12_half_cycles_join Cases.endpointLibrary 0%nat 1%nat 2%nat 3%nat
           (Rhino.initial Examples.joints) 2%nat).
  - intros qa qb. cbn. destruct (Req_EM_T 0 0); [reflexivity|lra].
  - intros qa qb. cbn. destruct (Req_EM_T 1 0); [lra|reflexivity].
Defined.

(** ** The amplitude and the reach of the ripple *)

Section Amplitude.
Context `{Library}.
Hypothesis ease_range : forall e p, 0 <= p <= 1 -> 0 <= ease e p <= 1.

Lemma tick_decaysBefore now ts s :
  Host.decaysBefore (now :: ts) s -> Forall (Rle now) ts ->
  Host.decaysBefore ts (Flag.tick now s).
Proof.
  intros [Hw Hd] Hts. unfold Flag.tick.
  destruct (tween s) as [|t0|t0] eqn:E.
  - split; [exact Hw|]. intros t0 Ht. congruence.
  - destruct (Rle_dec (t0 + 4) now); split; cbn.
    + lra.
    + now intros t [= <-].
    + exact Hw.
    + discriminate.
  - pose proof (Hd t0 eq_refl) as Hall.
    inversion Hall as [|? ? Hle Hall']; subst.
    destruct (Rle_dec (t0 + 5) now) as [|Hlt]; split; cbn.
    + lra.
    + discriminate.
    + assert (Hp : 0 <= (now - t0) / 5 <= 1) by lra.
      pose proof (ease_range Power2Out _ Hp). lra.
    + now intros t [= <-].
Qed.

Lemma useFrame_tween time s : tween (Flag.useFrame time s) = tween s.
Proof.
  destruct (useFrame_cases time s) as [->|[_ ->]]; [reflexivity|].
  apply rippleAll_simple.
Qed.

Lemma step_decaysBefore ts s e :
  (forall now, e <> Flag.Tick now) ->
  Host.decaysBefore ts s -> Host.decaysBefore ts (Flag.step s e).
Proof.
  intros He [Hw Hd].
  destruct e as [now|elapsed| | |]; cbn [Flag.step].
  - now destruct (He now).
  - split; [now rewrite useFrame_waveStrength|].
    now rewrite useFrame_tween.
  - unfold Flag.onClick. now destruct (Rlt_dec _ _).
  - unfold Flag.onPointerOver. now destruct (Rlt_dec _ _).
  - now split.
Qed.

Lemma step_onePass h r s e :
  0 <= waveStrength s <= 5 ->
  Host.onePass h r (geometries s r) ->
  Host.onePass h r (geometries (Flag.step s e) r).
Proof.
  intros Hw Hg.
  destruct e as [now|elapsed| | |]; cbn [Flag.step].
  - now rewrite tick_geometries.
  - destruct (useFrame_cases elapsed s) as [->|[Hpos ->]]; [exact Hg|].
    rewrite rippleAll_geometries. case_decide; [|exact Hg].
    right. exists elapsed, (waveStrength s). split; [lra|].
    destruct Hg as [->|(time & a & _ & ->)]; [reflexivity|].
    apply rippleGeometry_absorb.
  - now rewrite onClick_geometries.
  - now rewrite onPointerOver_geometries.
  - exact Hg.
Qed.

Lemma run_decaysBefore h r es s :
  StronglySorted Rle (Host.tickTimes es) ->
  Host.decaysBefore (Host.tickTimes es) s ->
  Host.onePass h r (geometries s r) ->
  0 <= waveStrength (Flag.run s es) <= 5
  /\ Host.onePass h r (geometries (Flag.run s es) r).
Proof.
  unfold Flag.run.
  induction es as [|e es IH] in s |- *; intros Hs Hd Hg; cbn [fold_left].
  - split; [apply Hd|exact Hg].
  - assert (Hw : 0 <= waveStrength s <= 5) by apply Hd.
    pose proof (step_onePass h r s e Hw Hg) as Hg'.
    destruct e as [now|elapsed| | |].
    + change (Host.tickTimes (Flag.Tick now :: es))
        with (now :: Host.tickTimes es) in Hs, Hd.
      apply StronglySorted_inv in Hs as [Hs Hall].
      apply IH; [exact Hs| |exact Hg'].
      now apply tick_decaysBefore.
    + apply IH; [exact Hs| |exact Hg'].
      apply step_decaysBefore; [discriminate|exact Hd].
    + apply IH; [exact Hs| |exact Hg'].
      apply step_decaysBefore; [discriminate|exact Hd].
    + apply IH; [exact Hs| |exact Hg'].
      apply step_decaysBefore; [discriminate|exact Hd].
    + apply IH; [exact Hs| |exact Hg'].
      apply step_decaysBefore; [discriminate|exact Hd].
Qed.

Lemma wave_reach time a x :
  0 < a <= 5 ->
  Rabs (RippleField.wave time (RippleField.baseHeight * a) x)
    <= 0.75 * RippleField.edgeFactor x.
Proof.
  intros Ha. unfold RippleField.wave, RippleField.baseHeight.
  pose proof (edgeFactor_range x) as He.
  pose proof (SIN_bound (time * RippleField.waveSpeed
                         + x * RippleField.waveLength)) as Hs.
  set (sn := sin _) in *. set (ed := RippleField.edgeFactor x) in *.
  assert (H1 : 0 <= 0.15 * a * ed) by (apply Rmult_le_pos; lra).
  assert (H2 : 0.15 * a * ed <= 0.75 * ed)
    by (apply Rmult_le_compat_r; lra).
  replace (sn * (0.15 * a) * ed) with (sn * (0.15 * a * ed)) by ring.
  rewrite Rabs_mult, (Rabs_pos_eq (0.15 * a * ed)) by exact H1.
  assert (H3 : Rabs sn <= 1) by (apply Rabs_le; lra).
  pose proof (Rabs_pos sn) as H4.
  apply Rle_trans with (1 * (0.15 * a * ed)); [|lra].
  apply Rmult_le_compat_r; assumption.
Qed.

End Amplitude.

(** X13. As long as the host's clock does not run backwards and the
    easing curves keep the interval from 0 to 1, the amplitude of a
    flag mounted on five meshes or more stays between 0 and 5, and
    every vertex of every target is, at every moment, its loaded
    position moved in y and in z by at most 0.75 times its edge factor:
    at most 0.75 anywhere, and not at all at the pole. *)
Theorem X13_the_ripple_has_a_bounded_reach :
  forall (L : Library) (nodes : list Object3D) (h : Geometries) (now : R)
         (es : list Flag.Event) (m : Mesh) (i : nat) (x y z : R),
    (forall e p, 0 <= p <= 1 -> 0 <= ease e p <= 1) ->
    StronglySorted Rle (Host.tickTimes es) ->
    (5 <= length (Classifier.collectMeshes nodes))%nat ->
    m ∈ take 5 (Classifier.rank h nodes) ->
    RippleField.vertex (position (h (geometry m))) i = Some (x, y, z) ->
    let s0 :=
      snd (Flag.mount {| rootMounted := true; flagLookup := FlagGroup nodes |}
             h now) in
    0 <= waveStrength (Flag.run s0 es) <= 5
    /\ exists d : R,
         Rabs d <= 0.75 * RippleField.edgeFactor x
         /\ Rabs d <= 0.75
         /\ RippleField.vertex
              (position (geometries (Flag.run s0 es) (geometry m))) i
            = Some (x, y + d, z + d).
Proof.
  intros L nodes h now es m i x y z Hease Hsorted Hlen Hm Hv s0.
  destruct (setup_completes_with_five_meshes nodes h now Hlen)
    as (_ & Hf & Ht & Hw & _ & Hc).
  fold s0 in Hf, Ht, Hw, Hc.
  rewrite <- targetMeshes_select, <- Hf in Hm.
  destruct (Hc m Hm) as (Hn & Ho & Hp).
  pose proof (edgeFactor_range x) as He.
  destruct (run_decaysBefore Hease (geometries s0) (geometry m) es s0)
    as [Hb Hg]; [exact Hsorted| |now left|].
  { split; [rewrite Hw; lra|]. intros t0 Hd. congruence. }
  split; [exact Hb|].
  destruct Hg as [->|(time & a & Ha & ->)].
  - exists 0. rewrite Rabs_R0, Hp, Hv.
    split; [lra|]. split; [lra|]. do 3 f_equal; lra.
  - exists (RippleField.wave time (RippleField.baseHeight * a) x).
    pose proof (wave_reach time a x Ha) as Hr.
    split; [exact Hr|]. split; [lra|].
    apply (rippleGeometry_vertex time _ _ (position (h (geometry m))));
      [exact Ho|now rewrite Hp|exact Hv].
Qed.

Lemma X13_the_ripple_has_a_bounded_reach_witness :
  0 <= waveStrength
         (@Flag.run Examples.linearLibrary
            (snd (Flag.mount (Examples.sceneOf Examples.fiveMeshes)
                    Cases.triangles 0))
            Cases.session) <= 5
  /\ exists d : R,
       Rabs d <= 0.75 * RippleField.edgeFactor 2
       /\ Rabs d <= 0.75
       /\ RippleField.vertex
            (position
               (geometries
                  (@Flag.run Examples.linearLibrary
                     (snd (Flag.mount (Examples.sceneOf Examples.fiveMeshes)
                             Cases.triangles 0))
                     Cases.session)
                  (geometry Examples.plane))) 2
          = Some (2, 0 + d, 1 + d).
Proof.
  apply (X13_the_ripple_has_a_bounded_reach Examples.linearLibrary
           Examples.fiveMeshes Cases.triangles 0 Cases.session
           Examples.plane 2 2 0 1).
  - intros e p Hp. cbn. exact Hp.
  - cbn. repeat constructor; lra.
  - cbn. lia.
  - cbn. apply list_elem_of_further, list_elem_of_here.
  - reflexivity.
Defined.

(** ** What the mascot's timelines keep *)

Section MascotKeeps.
Context `{Library}.

Lemma sameJoints_refl s : Host.sameJoints s s.
Proof. repeat split. Qed.

Lemma sameJoints_trans s1 s2 s3 :
  Host.sameJoints s1 s2 -> Host.sameJoints s2 s3 -> Host.sameJoints s1 s3.
Proof.
  intros (Hb & Hw & Hn) (Hb' & Hw' & Hn').
  split; [congruence|]. split; [congruence|].
  intros r. now rewrite Hn'.
Qed.

Lemma slerpInto_name bone qa qb t sk r :
  bone_name (Rhino.slerpInto bone qa qb t sk r) = bone_name (sk r).
Proof.
  unfold Rhino.slerpInto, insert, fn_insert.
  case_decide; [subst|]; reflexivity.
Qed.

Lemma applyUpdate_sameJoints u t s :
  Host.sameJoints s (Rhino.applyUpdate u t s).
Proof.
  destruct u; cbn [Rhino.applyUpdate]; repeat split; intros r;
    cbn [skeleton Rhino.set_skeleton Rhino.set_positionX];
    now rewrite ?slerpInto_name.
Qed.

Lemma fire_sameJoints c now s : Host.sameJoints s (Rhino.fire c now s).
Proof.
  unfold Rhino.fire. destruct (timelines s); repeat split.
Qed.

Lemma set_timelines_sameJoints t s :
  Host.sameJoints s (Rhino.set_timelines t s).
Proof. repeat split. Qed.

Lemma advance_sameJoints now tau todo s :
  Host.sameJoints s (snd (Rhino.advance now tau todo s)).
Proof.
  induction todo as [|[p [u d e|c]] rest IH] in s |- *; cbn [Rhino.advance].
  - apply sameJoints_refl.
  - destruct (Rle_dec (p + d) tau).
    + eapply sameJoints_trans; [apply applyUpdate_sameJoints|apply IH].
    + destruct (Rle_dec p tau); cbn [snd];
        [apply applyUpdate_sameJoints|apply sameJoints_refl].
  - destruct (Rle_dec p tau).
    + eapply sameJoints_trans; [apply fire_sameJoints|apply IH].
    + apply sameJoints_refl.
Qed.

Lemma renderCycle_sameJoints c steps s :
  Host.sameJoints s (Rhino.renderCycle c steps s).
Proof.
  induction steps as [|[u d e|cb] rest IH] in c, s |- *;
    cbn [Rhino.renderCycle].
  - apply sameJoints_refl.
  - destruct (Rlt_dec c d); [apply applyUpdate_sameJoints|].
    eapply sameJoints_trans; [apply applyUpdate_sameJoints|apply IH].
  - apply IH.
Qed.

Lemma tick_sameJoints now s : Host.sameJoints s (Rhino.tick now s).
Proof.
  unfold Rhino.tick. destruct (timelines s) as [tl|];
    [|apply sameJoints_refl].
  cbv zeta.
  match goal with
  | |- context [Rhino.advance ?n ?t ?p ?s2] =>
      pose proof (advance_sameJoints n t p s2) as A;
      assert (B : Host.sameJoints s s2);
      [|destruct (Rhino.advance n t p s2) as [todo s3]]
  end.
  - destruct (paused _).
    + apply set_timelines_sameJoints.
    + eapply sameJoints_trans; [apply set_timelines_sameJoints|].
      apply renderCycle_sameJoints.
  - cbn [snd] in A. pose proof (sameJoints_trans _ _ _ B A) as C.
    destruct (timelines s3); [|exact C].
    eapply sameJoints_trans; [exact C|apply set_timelines_sameJoints].
Qed.

Lemma run_sameJoints s ticks : Host.sameJoints s (Rhino.run s ticks).
Proof.
  unfold Rhino.run.
  induction ticks as [|t ticks IH] in s |- *; cbn [fold_left].
  - apply sameJoints_refl.
  - eapply sameJoints_trans; [apply tick_sameJoints|apply IH].
Qed.

Lemma collectBones_ext sk sk' nodes :
  (forall r, bone_name (sk' r) = bone_name (sk r)) ->
  Rhino.collectBones sk' nodes = Rhino.collectBones sk nodes.
Proof.
  intros E. unfold Rhino.collectBones.
  generalize (∅ : gmap string Ref).
  induction nodes as [|[b|] nodes IH]; intros m; cbn [fold_left];
    [reflexivity| |apply IH].
  rewrite E. apply IH.
Qed.

End MascotKeeps.

(** X14. The mascot's timelines write orientations and nothing else of
    a joint: whatever the state and however long the sequencer runs,
    every joint keeps its name, the table of resolved joints and the
    diagnostics stay as they were, and traversing any scene again
    resolves every name to the joint it resolved to before. *)
Theorem X14_joints_keep_their_names :
  forall (L : Library) (s : RhinoState) (ticks : list R),
    bones (Rhino.run s ticks) = bones s
    /\ rhinoWarnings (Rhino.run s ticks) = rhinoWarnings s
    /\ (forall r : Ref,
          bone_name (skeleton (Rhino.run s ticks) r)
          = bone_name (skeleton s r))
    /\ forall nodes : list RhinoNode,
         Rhino.collectBones (skeleton (Rhino.run s ticks)) nodes
         = Rhino.collectBones (skeleton s) nodes.
Proof.
  intros L s ticks.
  destruct (run_sameJoints s ticks) as (Hb & Hw & Hn).
  split; [exact Hb|]. split; [exact Hw|]. split; [exact Hn|].
  intros nodes. now apply collectBones_ext.
Qed.

(** ** The root's range *)

Section RootRange.
Context `{Library}.
Variables a b : R.
Hypothesis ease_range : forall e p, 0 <= p <= 1 -> 0 <= ease e p <= 1.

Lemma rooted_ext s s' :
  positionX s' = positionX s -> timelines s' = timelines s ->
  Host.rooted a b s -> Host.rooted a b s'.
Proof. unfold Host.rooted. now intros -> ->. Qed.

Lemma applyUpdate_timelines u t s :
  timelines (Rhino.applyUpdate u t s) = timelines s.
Proof. now destruct u. Qed.

Lemma applyUpdate_keepsRoot u d e t s :
  Host.keepsRoot (To u d e) ->
  positionX (Rhino.applyUpdate u t s) = positionX s.
Proof. destruct u; cbn; tauto. Qed.

Lemma applyUpdate_rooted u d e t s :
  Host.rootWithin a b (To u d e) -> 0 <= t <= 1 ->
  Host.rooted a b s -> Host.rooted a b (Rhino.applyUpdate u t s).
Proof.
  intros Hu Ht [Hx Htl].
  split; [|now rewrite applyUpdate_timelines].
  destruct u as [|from to| | |]; try exact Hx.
  cbn in Hu |- *. destruct Hu as [Hf Hto].
  assert (0 <= (1 - t) * (from - a)) by (apply Rmult_le_pos; lra).
  assert (0 <= t * (to - a)) by (apply Rmult_le_pos; lra).
  assert (0 <= (1 - t) * (b - from)) by (apply Rmult_le_pos; lra).
  assert (0 <= t * (b - to)) by (apply Rmult_le_pos; lra).
  lra.
Qed.

Lemma fire_rooted c now s :
  Host.rooted a b s -> Host.rooted a b (Rhino.fire c now s).
Proof.
  intros [Hx Htl]. unfold Rhino.fire.
  destruct (timelines s) as [tl|] eqn:E; [|split; [exact Hx|now rewrite E]].
  split; [exact Hx|]. cbn. intros tl' [= <-]. cbn. now apply Htl.
Qed.

Lemma advance_rooted now tau todo s :
  Forall (Host.rootWithin a b) (snd <$> todo) -> Host.rooted a b s ->
  Forall (Host.rootWithin a b) (snd <$> fst (Rhino.advance now tau todo s))
  /\ Host.rooted a b (snd (Rhino.advance now tau todo s)).
Proof.
  induction todo as [|[p [u d e|c]] rest IH] in s |- *; intros Hall Hs;
    cbn [Rhino.advance].
  - now split.
  - rewrite fmap_cons in Hall. cbn [snd] in Hall.
    inversion Hall as [|? ? Hu Hrest]; subst.
    destruct (Rle_dec (p + d) tau) as [|Hlate].
    + apply IH; [exact Hrest|].
      apply (applyUpdate_rooted u d e); [exact Hu|lra|exact Hs].
    + destruct (Rle_dec p tau) as [Hin|]; cbn [fst snd];
        (split; [rewrite fmap_cons; now constructor|]); [|exact Hs].
      apply (applyUpdate_rooted u d e); [exact Hu| |exact Hs].
      apply ease_range.
      assert (Hd : 0 < d) by lra.
      split.
      * apply Rmult_le_pos; [lra|]. left. now apply Rinv_0_lt_compat.
      * apply (Rmult_le_reg_r d); [exact Hd|].
        unfold Rdiv. rewrite Rmult_assoc, Rinv_l by lra. lra.
  - rewrite fmap_cons in Hall. cbn [snd] in Hall.
    inversion Hall as [|? ? Hu Hrest]; subst.
    destruct (Rle_dec p tau).
    + apply IH; [exact Hrest|now apply fire_rooted].
    + cbn [fst snd]. split; [rewrite fmap_cons; now constructor|exact Hs].
Qed.

Lemma renderCycle_keeps c steps s :
  Forall Host.keepsRoot steps ->
  positionX (Rhino.renderCycle c steps s) = positionX s
  /\ timelines (Rhino.renderCycle c steps s) = timelines s.
Proof.
  induction steps as [|[u d e|cb] rest IH] in c, s |- *; intros Hall;
    cbn [Rhino.renderCycle]; [now split| |];
    inversion Hall as [|? ? Hu Hrest]; subst.
  - destruct (Rlt_dec c d).
    + now rewrite applyUpdate_timelines, (applyUpdate_keepsRoot u d e).
    + destruct (IH (c - d) (Rhino.applyUpdate u 1 s) Hrest) as [-> ->].
      now rewrite applyUpdate_timelines, (applyUpdate_keepsRoot u d e).
  - now apply IH.
Qed.

Lemma tick_rooted now s :
  Host.rooted a b s -> Host.rooted a b (Rhino.tick now s).
Proof.
  intros Hs. unfold Rhino.tick.
  destruct (timelines s) as [tl|] eqn:E; [|exact Hs].
  destruct Hs as [Hx Htl]. destruct (Htl tl E) as [Hk Hp].
  cbv zeta.
  match goal with
  | |- context [Rhino.advance ?n ?t ?p ?s2] =>
      assert (B : Host.rooted a b s2);
      [|pose proof (advance_rooted n t p s2 Hp B) as A;
        destruct (Rhino.advance n t p s2) as [todo s3]]
  end.
  - assert (S1 : forall legs,
               loopSteps legs = loopSteps (legTl tl) ->
               Host.rooted a b
                 (Rhino.set_timelines
                    (Some {| legTl := legs; bodyTl := bodyTl tl;
                             lastTick := now |}) s)).
    { intros legs El. split; [exact Hx|].
      cbn. intros tl' [= <-]. cbn. now rewrite El. }
    destruct (paused (legTl tl)) eqn:Ep.
    + rewrite Ep. now apply S1.
    + cbn [paused]. unfold Rhino.renderLoop. cbn [loopSteps].
      match goal with
      | |- Host.rooted a b (Rhino.renderCycle ?c ?steps ?s1) =>
          destruct (renderCycle_keeps c steps s1 Hk) as [Ex Et];
          apply (rooted_ext s1); [exact Ex|exact Et|]
      end.
      now apply S1.
  - cbn [fst snd] in A. destruct A as [Htodo [Hx3 Htl3]].
    destruct (timelines s3) as [tl3|] eqn:E3;
      [|split; [exact Hx3|now rewrite E3]].
    split; [exact Hx3|]. cbn. intros tl' [= <-]. cbn.
    split; [now apply Htl3|exact Htodo].
Qed.

Lemma run_rooted s ticks :
  Host.rooted a b s -> Host.rooted a b (Rhino.run s ticks).
Proof.
  unfold Rhino.run.
  induction ticks as [|t ticks IH] in s |- *; cbn [fold_left]; [auto|].
  intros Hs. now apply IH, tick_rooted.
Qed.

End RootRange.

Lemma walking_rooted sk found fl bl fr br neck now :
  Host.rooted (-15) (-9.5) (Rhino.walking sk found fl bl fr br neck now).
Proof.
  split; [cbn; lra|].
  cbn. intros tl [= <-]. cbn [legTl bodyTl loopSteps pending].
  split; [repeat constructor|].
  destruct neck; cbn; repeat constructor; cbn; lra.
Qed.

(** Setup leaves the mascot without timelines and where it was, or
    walking. *)
Lemma mount_cases scene sk now :
  (timelines (Rhino.mount scene sk now) = None
   /\ positionX (Rhino.mount scene sk now) = 0)
  \/ exists found fl bl fr br neck,
       Rhino.mount scene sk now
       = Rhino.walking sk found fl bl fr br neck now.
Proof.
  destruct (groupMounted scene) eqn:Hm.
  2: { left. unfold Rhino.mount, Rhino.setup. rewrite Hm. now split. }
  assert (Hout :
            Rhino.collectBones sk (rhinoNodes scene) !! "Front_leg_1_L"%string
              = None
            \/ Rhino.collectBones sk (rhinoNodes scene) !! "Back_leg_1_L"%string
                = None
            \/ Rhino.collectBones sk (rhinoNodes scene) !! "Front_leg_1_R"%string
                = None
            \/ Rhino.collectBones sk (rhinoNodes scene) !! "Back_leg_1_R"%string
                = None ->
            timelines (Rhino.mount scene sk now) = None
            /\ positionX (Rhino.mount scene sk now) = 0).
  { intros Hmiss.
    destruct (mount_without_legs scene sk now Hm Hmiss)
      as (Hn & _ & _ & Hx & _).
    split; [exact Hn|exact Hx]. }
  destruct (Rhino.collectBones sk (rhinoNodes scene)
              !! "Front_leg_1_L"%string) as [fl|] eqn:Hfl; [|left; tauto].
  destruct (Rhino.collectBones sk (rhinoNodes scene)
              !! "Back_leg_1_L"%string) as [bl|] eqn:Hbl; [|left; tauto].
  destruct (Rhino.collectBones sk (rhinoNodes scene)
              !! "Front_leg_1_R"%string) as [fr|] eqn:Hfr; [|left; tauto].
  destruct (Rhino.collectBones sk (rhinoNodes scene)
              !! "Back_leg_1_R"%string) as [br|] eqn:Hbr; [|left; tauto].
  right. do 6 eexists.
  apply (mount_with_legs scene sk now fl bl fr br Hm Hfl Hbl Hfr Hbr).
Qed.

(** X15. If the easing curves keep the interval from 0 to 1, the mascot
    never leaves the segment of its walk: once its timelines exist, its
    root's x lies between -15 and -9.5 after any run of the sequencer;
    when setup created none, the start position was never applied and x
    stays 0; and after the cleanup, x stays where the cleanup found
    it. *)
Theorem X15_root_stays_on_its_segment :
  forall (L : Library) (scene : RhinoScene) (sk : Skeleton) (now : R)
         (ticks ticks' : list R),
    (forall e p, 0 <= p <= 1 -> 0 <= ease e p <= 1) ->
    let s := Rhino.run (Rhino.mount scene sk now) ticks in
    (timelines (Rhino.mount scene sk now) = None -> positionX s = 0)
    /\ (timelines (Rhino.mount scene sk now) <> None ->
        -15 <= positionX s <= -9.5)
    /\ positionX (Rhino.run (Rhino.cleanup s) ticks') = positionX s.
Proof.
  intros L scene sk now ticks ticks' Hease s.
  split; [|split].
  - intros Hn. subst s. rewrite (run_without_timelines _ _ Hn).
    destruct (mount_cases scene sk now)
      as [[_ Hx]|(found & fl & bl & fr & br & neck & E)]; [exact Hx|].
    rewrite E in Hn. discriminate.
  - intros Hsome. subst s.
    apply (run_rooted (-15) (-9.5) Hease).
    destruct (mount_cases scene sk now)
      as [[Hn _]|(found & fl & bl & fr & br & neck & ->)]; [contradiction|].
    apply walking_rooted.
  - now rewrite cleanup_stops_the_timelines.
Qed.

Lemma X15_root_stays_on_its_segment_witness :
  -15 <= positionX (@Rhino.run Examples.linearLibrary
                      (Rhino.mount Examples.rhino Examples.joints 0)
                      [1; 6; 8; 12]) <= -9.5.
Proof.
  apply (X15_root_stays_on_its_segment Examples.linearLibrary Examples.rhino
           Examples.joints 0 [1; 6; 8; 12] []).
  - intros e p Hp. cbn. exact Hp.
  - rewrite (mount_with_legs Examples.rhino Examples.joints 0
               0%nat 1%nat 2%nat 3%nat eq_refl eq_refl eq_refl eq_refl
               eq_refl).
    discriminate.
Defined.

(** ** The interactive flag *)

Section Interactive.
Context `{Library}.

Lemma step_butClickable s s' e :
  Host.butClickable s = Host.butClickable s' ->
  Host.butClickable (Flag.step s e) = Host.butClickable (Flag.step s' e).
Proof.
  destruct s as [g f w c tw ry ws nv cu rp], s' as [g' f' w' c' tw' ry' ws' nv' cu' rp'].
  unfold Host.butClickable. cbn. intros [= <- <- <- <- <- <- <- <- <-].
  destruct e as [now|elapsed| | |]; cbn [Flag.step].
  - unfold Flag.tick. cbn.
    destruct tw as [|t0|t0]; [reflexivity| |];
      destruct (Rle_dec _ _); reflexivity.
  - unfold Flag.useFrame. cbn.
    destruct (Rle_dec w 0); [reflexivity|].
    destruct f as [[p|] [q|] [t|] [u|] [v|]]; reflexivity.
  - unfold Flag.onClick. cbn. destruct (Rlt_dec 0 w); reflexivity.
  - unfold Flag.onPointerOver. cbn. destruct (Rlt_dec 0 w); reflexivity.
  - reflexivity.
Qed.

Lemma step_stays_clickable s e :
  isClickable s = true -> isClickable (Flag.step s e) = true.
Proof.
  intros Hc. destruct e as [now|elapsed| | |]; cbn [Flag.step].
  - unfold Flag.tick.
    destruct (tween s) as [|t0|t0]; [exact Hc| |];
      destruct (Rle_dec _ _); cbn; auto.
  - destruct (useFrame_cases elapsed s) as [->|[_ ->]]; [exact Hc|].
    destruct (rippleAll_simple elapsed
                (RippleField.baseHeight * waveStrength s)
                (Flag.targetMeshes (flagRef s)) s) as (_ & _ & -> & _).
    exact Hc.
  - now rewrite onClick_isClickable.
  - unfold Flag.onPointerOver. now destruct (Rlt_dec _ _).
  - exact Hc.
Qed.

End Interactive.

(** X16. The interactive flag is written and never read: two states
    of the flag component that differ in it at most are taken by any
    run to states that differ in it at most, so it decides neither a
    navigation, nor the cursor, nor a ripple; and once set it stays
    set. *)
Theorem X16_interactive_flag_is_never_read :
  forall (L : Library) (s s' : FlagState) (es : list Flag.Event),
    Host.butClickable s = Host.butClickable s' ->
    Host.butClickable (Flag.run s es) = Host.butClickable (Flag.run s' es)
    /\ (isClickable s = true -> isClickable (Flag.run s es) = true).
Proof.
  intros L s s' es E. split.
  - unfold Flag.run.
    induction es as [|e es IH] in s, s', E |- *; cbn [fold_left];
      [exact E|].
    apply IH. now apply step_butClickable.
  - apply (run_invariant (fun s => isClickable s = true)).
    intros s1 e. apply step_stays_clickable.
Qed.

Lemma X16_interactive_flag_is_never_read_witness :
  Host.butClickable
    (@Flag.run Examples.linearLibrary Cases.interactive Cases.session)
  = Host.butClickable
      (@Flag.run Examples.linearLibrary (Flag.initial Examples.store)
         Cases.session)
  /\ isClickable
       (@Flag.run Examples.linearLibrary Cases.interactive Cases.session)
     = true.
Proof.
  destruct (X16_interactive_flag_is_never_read Examples.linearLibrary
              Cases.interactive (Flag.initial Examples.store) Cases.session
              eq_refl) as [A B].
  split; [exact A|exact (B eq_refl)].
Defined.

(** ** The turn of the flag *)

Section Turn.
Context `{Library}.
Variable start : R.
Hypothesis ease_range : forall e p, 0 <= p <= 1 -> 0 <= ease e p <= 1.

Lemma step_keeps_the_turn s e :
  (forall now, e <> Flag.Tick now) ->
  rotationY (Flag.step s e) = rotationY s
  /\ tween (Flag.step s e) = tween s.
Proof.
  intros He. destruct s as [g f w c tw ry ws nv cu rp].
  destruct e as [now|elapsed| | |]; cbn [Flag.step].
  - now destruct (He now).
  - unfold Flag.useFrame. cbn.
    destruct (Rle_dec w 0); [now split|].
    destruct f as [[p|] [q|] [t|] [u|] [v|]]; now split.
  - unfold Flag.onClick. cbn. destruct (Rlt_dec 0 w); now split.
  - unfold Flag.onPointerOver. cbn. destruct (Rlt_dec 0 w); now split.
  - now split.
Qed.

Lemma run_turn es s :
  StronglySorted Rle (Host.tickTimes es) ->
  0 <= rotationY s <= PI * 2 ->
  (tween s = Rotating start /\ Forall (Rle start) (Host.tickTimes es))
  \/ ((forall t0, tween s <> Rotating t0) /\ rotationY s = PI * 2) ->
  0 <= rotationY (Flag.run s es) <= PI * 2
  /\ (tween (Flag.run s es) = Rotating start
      \/ rotationY (Flag.run s es) = PI * 2).
Proof.
  pose proof PI_RGT_0 as Hpi.
  unfold Flag.run.
  induction es as [|e es IH] in s |- *; intros Hs Hr Hcase; cbn [fold_left].
  - split; [exact Hr|]. destruct Hcase as [[? _]|[_ ?]]; auto.
  - destruct e as [now|elapsed| | |].
    + change (Host.tickTimes (Flag.Tick now :: es))
        with (now :: Host.tickTimes es) in Hs, Hcase.
      apply StronglySorted_inv in Hs as [Hs Hall].
      cbn [Flag.step]. unfold Flag.tick.
      destruct Hcase as [[Et Hge]|[Hno E2]].
      * inversion Hge as [|? ? Hle Hge']; subst. rewrite Et.
        destruct (Rle_dec (start + 4) now) as [|Hlt].
        -- apply IH; [exact Hs|cbn; lra|].
           right. cbn. split; [discriminate|reflexivity].
        -- assert (Hp : 0 <= (now - start) / 4 <= 1) by lra.
           pose proof (ease_range Power2InOut _ Hp) as He.
           apply IH; [exact Hs| |left; cbn; now split].
           cbn. split; [apply Rmult_le_pos; lra|].
           rewrite <- (Rmult_1_r (PI * 2)) at 2.
           apply Rmult_le_compat_l; lra.
      * destruct (tween s) as [|t0|t0] eqn:Et.
        -- apply IH; [exact Hs|exact Hr|].
           right. split; [rewrite Et; discriminate|exact E2].
        -- now destruct (Hno t0).
        -- destruct (Rle_dec (t0 + 5) now); apply IH; try exact Hs;
             try exact Hr; right; cbn; (split; [discriminate|exact E2]).
    + destruct (step_keeps_the_turn s (Flag.Frame elapsed)) as [Er Et];
        [discriminate|].
      apply IH; [exact Hs|now rewrite Er|]. now rewrite Er, Et.
    + destruct (step_keeps_the_turn s Flag.Click) as [Er Et];
        [discriminate|].
      apply IH; [exact Hs|now rewrite Er|]. now rewrite Er, Et.
    + destruct (step_keeps_the_turn s Flag.PointerOver) as [Er Et];
        [discriminate|].
      apply IH; [exact Hs|now rewrite Er|]. now rewrite Er, Et.
    + destruct (step_keeps_the_turn s Flag.PointerOut) as [Er Et];
        [discriminate|].
      apply IH; [exact Hs|now rewrite Er|]. now rewrite Er, Et.
Qed.

End Turn.

Lemma mount_rotationY scene h now :
  rotationY (snd (Flag.mount scene h now)) = 0.
Proof.
  unfold Flag.mount, Flag.setup.
  destruct (rootMounted scene); cbn [negb]; [|reflexivity].
  destruct (flagLookup scene) as [| |nodes]; [reflexivity..|].
  cbv zeta.
  destruct (primary _); [|reflexivity].
  destruct (secondary _); [|reflexivity].
  destruct (Flag.cacheEach _ _) as [[|] h']; reflexivity.
Qed.

(** X17. As long as the host's clock does not run backwards from the
    moment of setup and the easing curves keep the interval from 0 to
    1, a flag mounted on five meshes or more turns once and no more:
    its rotation about y stays between 0 and a full turn, and from the
    tick that completes the rotation on it is the full turn, whatever
    follows. *)
Theorem X17_the_flag_turns_once :
  forall (L : Library) (nodes : list Object3D) (h : Geometries) (now : R)
         (es : list Flag.Event),
    (forall e p, 0 <= p <= 1 -> 0 <= ease e p <= 1) ->
    StronglySorted Rle (now :: Host.tickTimes es) ->
    (5 <= length (Classifier.collectMeshes nodes))%nat ->
    let s :=
      Flag.run
        (snd (Flag.mount {| rootMounted := true; flagLookup := FlagGroup nodes |}
                h now)) es in
    0 <= rotationY s <= PI * 2
    /\ (tween s = Rotating now \/ rotationY s = PI * 2).
Proof.
  intros L nodes h now es Hease Hsorted Hlen s. subst s.
  apply StronglySorted_inv in Hsorted as [Hsorted Hall].
  destruct (setup_completes_with_five_meshes nodes h now Hlen)
    as (_ & _ & Ht & _).
  pose proof PI_RGT_0 as Hpi.
  apply (run_turn now Hease); [exact Hsorted| |left; now split].
  rewrite mount_rotationY. lra.
Qed.

Lemma X17_the_flag_turns_once_witness :
  0 <= rotationY
         (@Flag.run Examples.linearLibrary
            (snd (Flag.mount (Examples.sceneOf Examples.fiveMeshes)
                    Examples.store 0))
            Cases.session) <= PI * 2
  /\ (tween
        (@Flag.run Examples.linearLibrary
           (snd (Flag.mount (Examples.sceneOf Examples.fiveMeshes)
                   Examples.store 0))
           Cases.session) = Rotating 0
      \/ rotationY
           (@Flag.run Examples.linearLibrary
              (snd (Flag.mount (Examples.sceneOf Examples.fiveMeshes)
                      Examples.store 0))
              Cases.session) = PI * 2).
Proof.
  apply (X17_the_flag_turns_once Examples.linearLibrary Examples.fiveMeshes
           Examples.store 0 Cases.session).
  - intros e p Hp. cbn. exact Hp.
  - cbn. repeat constructor; lra.
  - cbn. lia.
Defined.
